(** * gerador-proposta: the billing calculator and the placeholder resolver

    A shallow embedding of [streamlit_app/utils/edit_powerpoint.py].

    - Python [float] is IEEE binary64, embedded as Rocq's primitive [float];
      its operations round to nearest, ties to even.
    - Python [int] is [Z]; where an [int] meets a [float] the interpreter
      converts it and raises [OverflowError] when it does not fit.
    - Python [str]: the text of a shape is a list of Unicode code points;
      a dict key or a connection type, which the code only compares for
      equality, is a Rocq [string] (its UTF-8 bytes).
    - A [dict] with string keys is a [gmap string _]; a missing key raises
      [KeyError].
    - Exceptions are the [Raise] branch of [result]. *)

From Stdlib Require Import ZArith NArith Floats Lia List Bool String Ascii.
From Stdlib Require Import DecimalString DecimalN DecimalPos.
From stdpp Require Import base option list gmap strings.
Set Warnings "-inexact-float".

Local Open Scope Z_scope.

(** ** The Python run-time that the module relies on *)

Module Py.

Inductive exn :=
  | ValueError (msg : string)
  | KeyError (key : string)
  | OverflowError
  | ZeroDivisionError
  | AttributeError (attr : string).

Inductive result (A : Type) :=
  | Ok (a : A)
  | Raise (e : exn).
Arguments Ok {A} a.
Arguments Raise {A} e.

#[export] Instance result_ret : MRet result := fun A a => Ok a.
#[export] Instance result_bind : MBind result := fun A B f r =>
  match r with
  | Ok a => f a
  | Raise e => Raise e
  end.

(** [d[key]] *)
Definition getitem {V : Type} (d : gmap string V) (key : string) : result V :=
  match d !! key with
  | Some v => Ok v
  | None => Raise (KeyError key)
  end.

(** *** float *)

(** The conversion of an [int] that takes part in float arithmetic:
    correctly rounded, [OverflowError] when the rounded value is not
    finite. *)
Definition float_of_int (z : Z) : result float :=
  let f := SF2Prim (binary_normalize prec emax z 0 false) in
  if is_infinity f then Raise OverflowError else Ok f.

(** [x / y] on floats: a zero divisor raises. *)
Definition truediv (x y : float) : result float :=
  if (y =? 0)%float then Raise ZeroDivisionError else Ok (x / y)%float.

(** The integer nearest to [a / b] for [0 <= a], [0 < b], ties to even. *)
Definition div_half_even (a b : Z) : Z :=
  let q := a / b in
  let r := a mod b in
  match 2 * r ?= b with
  | Lt => q
  | Gt => q + 1
  | Eq => if Z.even q then q else q + 1
  end.

(** The integer nearest to [m * 2^e * 10^k], ties to even: the digits that
    a correctly rounded decimal conversion with [k] places produces. *)
Definition scaled_half_even (m : positive) (e : Z) (k : Z) : Z :=
  if 0 <=? e then Z.pos m * 2 ^ e * 10 ^ k
  else div_half_even (Z.pos m * 10 ^ k) (2 ^ (- e)).

(** [round(x, ndigits)] for [0 <= ndigits]: the float nearest to the
    decimal with [ndigits] places nearest to [x]; non-finite values and
    zeros round to themselves. *)
Definition round (x : float) (ndigits : Z) : float :=
  match Prim2SF x with
  | S754_finite s m e =>
      match scaled_half_even m e ndigits with
      | Z.pos k =>
          SF2Prim (SF64div (S754_finite s k 0)
                           (S754_finite false (Z.to_pos (10 ^ ndigits)) 0))
      | _ => SF2Prim (S754_zero s)
      end
  | _ => x
  end.

(** [x == z] for a float and an [int]: the two are compared exactly. *)
Definition float_eq_int (x : float) (z : Z) : bool :=
  match Prim2SF x with
  | S754_zero _ => z =? 0
  | S754_finite s m e =>
      if 0 <=? e then cond_Zopp s (Z.pos m * 2 ^ e) =? z
      else cond_Zopp s (Z.pos m) =? z * 2 ^ (- e)
  | _ => false
  end.

(** *** str *)

(** A string is its sequence of code points. *)
Definition str := list N.

(** A literal of the source, all of whose characters are ASCII. *)
Definition lit (s : string) : str := N_of_ascii <$> list_ascii_of_string s.

(** A one-character literal. *)
Definition char (c : ascii) : N := N_of_ascii c.

Fixpoint startswith (s prefix : str) : bool :=
  match prefix, s with
  | [], _ => true
  | _ :: _, [] => false
  | c :: prefix', d :: s' => N.eqb c d && startswith s' prefix'
  end.

(** The code points that [str.strip()] removes (those with [c.isspace()]). *)
Definition isspace (c : N) : bool :=
  ((9 <=? c) && (c <=? 13) || (28 <=? c) && (c <=? 32)
   || (c =? 133) || (c =? 160) || (c =? 5760)
   || (8192 <=? c) && (c <=? 8202)
   || (c =? 8232) || (c =? 8233) || (c =? 8239) || (c =? 8287)
   || (c =? 12288))%N.

Fixpoint lstrip (s : str) : str :=
  match s with
  | c :: s' => if isspace c then lstrip s' else s
  | [] => []
  end.

Definition rstrip (s : str) : str := rev (lstrip (rev s)).

Definition strip (s : str) : str := rstrip (lstrip s).

(** [s.replace(old, new)] for one-character [old] and [new]. *)
Definition replace (old new : N) (s : str) : str :=
  (fun c => if N.eqb c old then new else c) <$> s.

(** [sep.join(parts)] *)
Fixpoint join (sep : str) (parts : list str) : str :=
  match parts with
  | [] => []
  | [p] => p
  | p :: rest => p ++ sep ++ join sep rest
  end.

(** *** Values of type [Any] and what the interpreter cannot compute
    from its arguments *)

Inductive object :=
  | Str (s : str)
  | Int (z : Z)
  | Float (f : float).

(** [float_repr x] is [str(x)] for a float; [today] is
    [datetime.datetime.now().strftime('%d/%m/%Y')]. *)
Record host := {
  float_repr : float -> str;
  today : str
}.

(** *** Number formatting *)

Fixpoint uint_str (d : Decimal.uint) : str :=
  match d with
  | Decimal.Nil => []
  | Decimal.D0 d => 48%N :: uint_str d
  | Decimal.D1 d => 49%N :: uint_str d
  | Decimal.D2 d => 50%N :: uint_str d
  | Decimal.D3 d => 51%N :: uint_str d
  | Decimal.D4 d => 52%N :: uint_str d
  | Decimal.D5 d => 53%N :: uint_str d
  | Decimal.D6 d => 54%N :: uint_str d
  | Decimal.D7 d => 55%N :: uint_str d
  | Decimal.D8 d => 56%N :: uint_str d
  | Decimal.D9 d => 57%N :: uint_str d
  end.

(** The decimal digits of a natural number, ["0"] for zero. *)
Definition nat_str (n : N) : str := uint_str (N.to_uint n).

(** [str(z)] for an [int]. *)
Definition int_str (z : Z) : str :=
  match z with
  | Z.neg p => lit "-" ++ nat_str (N.pos p)
  | _ => nat_str (Z.to_N z)
  end.

(** The [,] option of the format mini-language: a separator between
    groups of three digits, counted from the right.  The argument is the
    digit string reversed. *)
Fixpoint group3_rev (sep : N) (ds : str) : str :=
  match ds with
  | a :: b :: c :: rest =>
      match rest with
      | [] => ds
      | _ :: _ => a :: b :: c :: sep :: group3_rev sep rest
      end
  | _ => ds
  end.

Definition group3 (sep : N) (ds : str) : str := rev (group3_rev sep (rev ds)).

Definition sign_str (s : bool) : str := if s then lit "-" else [].

(** The two digits of [0 <= c < 100]. *)
Definition two_digits (c : Z) : str :=
  [ (48 + Z.to_N (c / 10))%N; (48 + Z.to_N (c mod 10))%N ].

(** [f"{value:,.2f}"] for a float: the decimal with two places nearest
    to the value (ties to even), the integer part grouped by [,]. *)
Definition format_comma_2f (value : float) : str :=
  match Prim2SF value with
  | S754_nan => lit "nan"
  | S754_infinity s => sign_str s ++ lit "inf"
  | S754_zero s => sign_str s ++ lit "0.00"
  | S754_finite s m e =>
      let cents := scaled_half_even m e 2 in
      sign_str s ++ group3 (char ",") (nat_str (Z.to_N (cents / 100)))
        ++ lit "." ++ two_digits (cents mod 100)
  end.

(** [f"{x}"] *)
Definition format_object (h : host) (x : object) : str :=
  match x with
  | Str s => s
  | Int z => int_str z
  | Float f => float_repr h f
  end.

End Py.
Export Py.

(** ** class TarifaConstants *)

Module TarifaConstants.

(** The class attributes. *)
Record t := {
  TE_ENEL_CE : float;
  TUSD_ENEL_CE : float;
  ICMS : float;
  PISCOF : float
}.

(** The values that the class body assigns. *)
Definition cls : t := {|
  TE_ENEL_CE := 0.27291;
  TUSD_ENEL_CE := 0.44929;
  ICMS := 0.2;
  PISCOF := 0.05
|}.

Definition calculate_derived_rates (cls : t) : result (gmap string float) :=
  let tarifa_de_aplicacao := (TE_ENEL_CE cls + TUSD_ENEL_CE cls)%float in
  q ← truediv tarifa_de_aplicacao ((1 - ICMS cls) * (1 - PISCOF cls))%float;
  let tarifa_fornecida := round q 4 in
  a ← truediv (TE_ENEL_CE cls) ((1 - ICMS cls) * (1 - PISCOF cls))%float;
  b ← truediv (TUSD_ENEL_CE cls) (1 - PISCOF cls)%float;
  let tarifa_injetada_compartilhada := (a + b)%float in
  let tarifa_injetada_real := round tarifa_injetada_compartilhada 4 in
  let impostos_n_compoensaveis := (tarifa_fornecida - tarifa_injetada_real)%float in
  mret ({[ "tarifa de aplicação" := tarifa_de_aplicacao;
           "tarifa fornecida" := tarifa_fornecida;
           "tarifa injetada compartilhada" := tarifa_injetada_compartilhada;
           "tarifa injetada real" := tarifa_injetada_real;
           "impostos não compensáveis" := impostos_n_compoensaveis ]}
        : gmap string float).

Definition get_tarifas (self : t) : result (float * float * float * float) :=
  tarifas ← calculate_derived_rates self;
  fornecida ← getitem tarifas "tarifa fornecida";
  injetada ← getitem tarifas "tarifa injetada compartilhada";
  impostos ← getitem tarifas "impostos não compensáveis";
  injetada_real ← getitem tarifas "tarifa injetada real";
  mret (fornecida, injetada, impostos, injetada_real).

End TarifaConstants.

(** ** class FinancialCalculator *)

Module FinancialCalculator.

(** [self.tariff_data] is the only attribute. *)
Record t := { tariff_data : TarifaConstants.t }.

(** [n_ucs * 100], [100 * n_ucs] and the like are products of ints; the
    float operation that takes such a product converts it first. *)
Definition calculate_bill_before (self : t) (pic : float)
    (disponibility_cost : string) (energy_consumption : float) (n_ucs : Z)
  : result (gmap string float) :=
  '(tarifas_fornecida, tarifa_injetada, tarifas_impostos, tarifa_injetada_real)
      ← TarifaConstants.get_tarifas (tariff_data self);
  k ← float_of_int (n_ucs * 100);
  let energy_cost := ((energy_consumption - k) * tarifa_injetada_real)%float in
  min_cost ←
    (if String.eqb disponibility_cost "Trifásico" then
       k ← float_of_int (100 * n_ucs); mret (k * tarifas_fornecida)%float
     else if String.eqb disponibility_cost "Monofásico" then
       k ← float_of_int (30 * n_ucs); mret (k * tarifas_fornecida)%float
     else if String.eqb disponibility_cost "Bifásico" then
       k ← float_of_int (50 * n_ucs); mret (k * tarifas_fornecida)%float
     else Raise (ValueError "Custo de disponibilidade inválido."));
  let public_ilumination_cost := pic in
  k ← float_of_int (n_ucs * 100);
  let taxes := ((energy_consumption - k) * tarifas_impostos)%float in
  let total_bill := (energy_cost + min_cost + public_ilumination_cost + taxes)%float in
  mret ({[ "valor em energia" := energy_cost;
           "custo mínimo" := min_cost;
           "iluminação pública" := public_ilumination_cost;
           "impostos" := taxes;
           "total" := total_bill ]} : gmap string float).

(** The divisor of [bill_discount / 100] is the float 100. *)
Definition calculate_bill_after (self : t) (pic : float)
    (disponibility_cost : string) (energy_consumption : float) (n_ucs : Z)
    (bill_discount : float) : result (gmap string float) :=
  enel_bill ← calculate_bill_before self pic disponibility_cost energy_consumption n_ucs;
  taxes ← getitem enel_bill "impostos";
  energy_cost ← getitem enel_bill "valor em energia";
  min_cost ← getitem enel_bill "custo mínimo";
  public_ilumination_cost ← getitem enel_bill "iluminação pública";
  let energy_cost_discounted := (energy_cost * (1 - bill_discount / 100))%float in
  let total_bill_discounted :=
    (taxes + public_ilumination_cost + min_cost + energy_cost_discounted)%float in
  mret ({[ "valor em energia" := energy_cost;
           "custo mínimo" := min_cost;
           "iluminação pública" := public_ilumination_cost;
           "impostos" := taxes;
           "total" := total_bill_discounted ]} : gmap string float).

End FinancialCalculator.

(** ** The presentation document (python-pptx), as far as the module uses it *)

Module Pptx.

Inductive PP_ALIGN := LEFT | CENTER | RIGHT | JUSTIFY.

Inductive MSO_SHAPE_TYPE :=
  | AUTO_SHAPE | CHART | GROUP | PICTURE | PLACEHOLDER | TABLE | TEXT_BOX.

#[export] Instance MSO_SHAPE_TYPE_eq_dec : EqDecision MSO_SHAPE_TYPE.
Proof. solve_decision. Defined.

(** [Pt(n)]: a length in English Metric Units. *)
Definition Pt (n : Z) : Z := n * 12700.

Record Font := { font_name : option str; font_size : option Z }.

Record Run := {
  run_text : str;
  run_font : Font;
  run_alignment : option PP_ALIGN
}.

Record Paragraph := {
  runs : list Run;
  paragraph_font : Font;
  paragraph_alignment : option PP_ALIGN
}.

Record TextFrame := {
  paragraphs : list Paragraph;
  word_wrap : option bool
}.

(** A shape without a text frame has [text_frame = None]: reading
    [shape.text_frame] or [shape.text] on it raises. *)
Record Shape := {
  shape_type : MSO_SHAPE_TYPE;
  text_frame : option TextFrame
}.

Definition has_text_frame (shape : Shape) : bool :=
  match text_frame shape with Some _ => true | None => false end.

Definition get_text_frame (shape : Shape) : result TextFrame :=
  match text_frame shape with
  | Some tf => Ok tf
  | None => Raise (AttributeError "text_frame")
  end.

(** [paragraph.text] *)
Definition paragraph_text (p : Paragraph) : str := concat (run_text <$> runs p).

(** [shape.text]: the paragraphs' texts, one per line. *)
Definition shape_text (shape : Shape) : result str :=
  match text_frame shape with
  | Some tf => Ok (join [char "010"] (paragraph_text <$> paragraphs tf))
  | None => Raise (AttributeError "text")
  end.

Definition no_font : Font := {| font_name := None; font_size := None |}.

(** [paragraph.text = text]: the runs are replaced by one fresh run, none
    for the empty string. *)
Definition set_paragraph_text (p : Paragraph) (text : str) : Paragraph :=
  {| runs := match text with
             | [] => []
             | _ => [ {| run_text := text; run_font := no_font; run_alignment := None |} ]
             end;
     paragraph_font := paragraph_font p;
     paragraph_alignment := paragraph_alignment p |}.

(** [text_frame.add_paragraph()] appends an empty paragraph. *)
Definition new_paragraph : Paragraph :=
  {| runs := []; paragraph_font := no_font; paragraph_alignment := None |}.

Definition set_alignment (p : Paragraph) (a : PP_ALIGN) : Paragraph :=
  {| runs := runs p; paragraph_font := paragraph_font p; paragraph_alignment := Some a |}.

Definition set_paragraph_font (p : Paragraph) (f : Font) : Paragraph :=
  {| runs := runs p; paragraph_font := f; paragraph_alignment := paragraph_alignment p |}.

Definition set_runs (p : Paragraph) (rs : list Run) : Paragraph :=
  {| runs := rs; paragraph_font := paragraph_font p;
     paragraph_alignment := paragraph_alignment p |}.

End Pptx.
Export Pptx.

(** ** class TextFormatter *)

Module TextFormatter.

Definition format_text (run : Run) (text : str) (font_name : str)
    (font_size : Z) (align_center : bool) : Run :=
  {| run_text := text;
     run_font := {| Pptx.font_name := Some font_name;
                    Pptx.font_size := Some (Pt font_size) |};
     run_alignment := if align_center then Some CENTER else run_alignment run |}.

Definition format_money_br (value : float) : str :=
  replace (char "X") (char ".")
    (replace (char ".") (char ",")
       (replace (char ",") (char "X") (format_comma_2f value))).

(** The update of one paragraph, the same statements for the first and
    for the second paragraph of the source. *)
Definition update_paragraph (p : Paragraph) (text font : str) (size : Z)
    (center_align : bool) : Paragraph :=
  let p := if center_align then set_alignment p CENTER else p in
  match runs p with
  | run :: _ =>
      set_runs p (<[0%nat := format_text run text font size center_align]> (runs p))
  | [] =>
      let p := set_paragraph_text p text in
      let p := set_paragraph_font p {| font_name := Some font;
                                       font_size := Some (Pt size) |} in
      if center_align then set_alignment p CENTER else p
  end.

Definition update_text_shape (shape : Shape) (text1 font1 : str) (size1 : Z)
    (text2 font2 : option str) (size2 : option Z) (center_align : bool)
  : result Shape :=
  let font2 := default font1 font2 in
  let size2 := default size1 size2 in
  text_frame ← get_text_frame shape;
  let ps := paragraphs text_frame in
  let ps :=
    match ps with
    | p :: _ => <[0%nat := update_paragraph p text1 font1 size1 center_align]> ps
    | [] => ps
    end in
  let ps :=
    match text2 with
    | Some ((_ :: _) as text2) =>
        match ps !! 1%nat with
        | Some p => <[1%nat := update_paragraph p text2 font2 size2 center_align]> ps
        | None =>
            let p := set_paragraph_text new_paragraph text2 in
            let p := set_paragraph_font p {| font_name := Some font2;
                                             font_size := Some (Pt size2) |} in
            ps ++ [ if center_align then set_alignment p CENTER else p ]
        end
    | _ => ps
    end in
  mret {| shape_type := shape_type shape;
          text_frame := Some {| paragraphs := ps; word_wrap := Some true |} |}.

End TextFormatter.

(** ** class PowerPointUpdater *)

Module PowerPointUpdater.

(** What [logger.error] receives from [_update_text_shape]: [text[:20]]
    and the exception. *)
Record log_record := { snippet : str; error : exn }.

(** A statement that works on one shape: it leaves the shape as it is
    when it raises, and what it did before stays done. *)
Definition stmt := Shape -> Shape * result ().

Definition pass : stmt := fun shape => (shape, Ok ()).

Definition seq (a b : stmt) : stmt := fun shape =>
  match a shape with
  | (shape', Ok _) => b shape'
  | (shape', Raise e) => (shape', Raise e)
  end.

(** [TextFormatter.update_text_shape(shape, text1=..., font1=..., size1=...,
    center_align=...)]: the argument [text1] is evaluated first. *)
Definition call_update (text1 : result str) (font1 : string) (size1 : Z)
    (center_align : bool) : stmt := fun shape =>
  match text1 with
  | Raise e => (shape, Raise e)
  | Ok text1 =>
      match TextFormatter.update_text_shape shape text1 (lit font1) size1
              None None None center_align with
      | Ok shape' => (shape', Ok ())
      | Raise e => (shape, Raise e)
      end
  end.

(** [f"R$ {TextFormatter.format_money_br(value)}"] *)
Definition money (value : result float) : result str :=
  v ← value; mret (lit "R$ " ++ TextFormatter.format_money_br v).

(** [conta_antes['total'] - conta_depois['total']] *)
Definition savings (conta_antes conta_depois : gmap string float) : result float :=
  a ← getitem conta_antes "total";
  d ← getitem conta_depois "total";
  mret (a - d)%float.

Definition _update_text_shape (h : host) (shape : Shape) (text : str)
    (client discount : object) (conta_antes conta_depois : gmap string float)
    (log : list log_record) : Shape * list log_record :=
  let body : stmt :=
    seq
      (if startswith text (lit "CLIENTE: PPPPPP") then
         call_update (mret (lit "CLIENTE: " ++ format_object h client)) "Arial" 24 false
       else pass)
      (if startswith text (lit "DATA: DDDDDDD") then
         call_update (mret (lit "DATA: " ++ today h)) "Arial" 24 false
       else if startswith text (lit "XX%") then
         call_update (mret (format_object h discount ++ lit "%")) "Inter Bold" 20 true
       else if startswith text (lit "YY%") then
         call_update (mret (format_object h discount ++ lit "%")) "Inter Bold" 21 true
       else if startswith text (lit "R$ AAAA") then
         call_update (money (getitem conta_antes "total")) "Inter Bold" 26 true
       else if startswith text (lit "R$ AAAB") then
         call_update (money (getitem conta_antes "total")) "Inter Bold" 21 true
       else if startswith text (lit "R$ BBBB") then
         call_update (money (getitem conta_antes "custo mínimo")) "Inter Bold" 21 true
       else if startswith text (lit " R$ aBBa") then
         call_update (money (getitem conta_antes "custo mínimo")) "Inter" 21 true
       else if startswith text (lit "R$ CCCC") then
         call_update (money (getitem conta_depois "valor em energia")) "Inter Bold" 21 true
       else if startswith text (lit "R$ DDDD") then
         call_update (money (savings conta_antes conta_depois)) "Inter Bold" 21 true
       else if startswith text (lit "R$ DDDB") then
         call_update (money (savings conta_antes conta_depois)) "Inter Bold" 21 true
       else if startswith text (lit "R$ EEEE") then
         call_update (money (savings conta_antes conta_depois)) "Inter Bold" 37 true
       else if startswith text (lit "R$ EEEB") then
         call_update (money (savings conta_antes conta_depois)) "Inter Bold" 21 true
       else if startswith text (lit "R$ FFFF") then
         call_update
           (money (sv ← savings conta_antes conta_depois; mret (12 * sv)%float))
           "Inter Bold" 37 true
       else if startswith text (lit "R$ GGGG") then
         call_update
           (money (sv ← savings conta_antes conta_depois; mret (60 * sv)%float))
           "Inter Bold" 37 true
       else if startswith text (lit "R$ HHHH") then
         call_update (money (getitem conta_antes "valor em energia")) "Inter" 21 true
       else if startswith text (lit "R$ IIII") then
         call_update (money (getitem conta_antes "iluminação pública")) "Inter" 21 true
       else if startswith text (lit "R$ CDCD") then
         call_update (money (getitem conta_antes "custo mínimo")) "Inter" 21 true
       else if startswith text (lit "R$ CICI") then
         call_update (money (getitem conta_antes "impostos")) "Inter" 21 true
       else pass) in
  match body shape with
  | (shape', Ok _) => (shape', log)
  | (shape', Raise e) => (shape', log ++ [ {| snippet := take 20 text; error := e |} ])
  end.

(** The loop of [_update_slide] over [slide.shapes]: the shapes already
    visited, in order, and the log. *)
Fixpoint _update_slide (h : host) (shapes : list Shape) (client discount : object)
    (conta_antes conta_depois : gmap string float) (log : list log_record)
  : result (list Shape * list log_record) :=
  match shapes with
  | [] => mret ([], log)
  | shape :: rest =>
      '(shape', log') ←
        (if decide (shape_type shape = TEXT_BOX) then
           if has_text_frame shape then
             text ← shape_text shape;
             mret (_update_text_shape h shape (strip text) client discount
                     conta_antes conta_depois log)
           else mret (shape, log)
         else mret (shape, log));
      '(rest', log'') ← _update_slide h rest client discount conta_antes conta_depois log';
      mret (shape' :: rest', log'')
  end.

(** The loop of [update_presentation] over [self.presentation.slides]. *)
Fixpoint update_slides (h : host) (slides : list (list Shape)) (client discount : object)
    (conta_antes conta_depois : gmap string float) (log : list log_record)
  : result (list (list Shape) * list log_record) :=
  match slides with
  | [] => mret ([], log)
  | slide :: rest =>
      '(slide', log') ← _update_slide h slide client discount conta_antes conta_depois log;
      '(rest', log'') ← update_slides h rest client discount conta_antes conta_depois log';
      mret (slide' :: rest', log'')
  end.

(** [self.presentation] is the list of slides, each the list of its shapes. *)
Definition update_presentation (h : host) (presentation : list (list Shape))
    (client_info : gmap string object) (conta_antes conta_depois : gmap string float)
    (log : list log_record) : result (list (list Shape) * list log_record) :=
  client ← getitem client_info "cliente";
  discount ← getitem client_info "desconto";
  update_slides h presentation client discount conta_antes conta_depois log.

End PowerPointUpdater.

(** ** The placeholder catalog of the specification

    The conditionals of [_update_text_shape] read as a table: one rule per
    branch, the first one on its own, the others in the order of the
    [elif] chain. *)

Module Catalog.
Import PowerPointUpdater.

Inductive rule :=
  | CLIENTE | DATA | XX | YY | AAAA | AAAB | BBBB | aBBa | CCCC | DDDD
  | DDDB | EEEE | EEEB | FFFF | GGGG | HHHH | IIII | CDCD | CICI.

#[export] Instance rule_eq_dec : EqDecision rule.
Proof. solve_decision. Defined.

Definition pattern (r : rule) : str :=
  lit match r with
      | CLIENTE => "CLIENTE: PPPPPP" | DATA => "DATA: DDDDDDD"
      | XX => "XX%" | YY => "YY%"
      | AAAA => "R$ AAAA" | AAAB => "R$ AAAB" | BBBB => "R$ BBBB"
      | aBBa => " R$ aBBa" | CCCC => "R$ CCCC"
      | DDDD => "R$ DDDD" | DDDB => "R$ DDDB"
      | EEEE => "R$ EEEE" | EEEB => "R$ EEEB"
      | FFFF => "R$ FFFF" | GGGG => "R$ GGGG"
      | HHHH => "R$ HHHH" | IIII => "R$ IIII"
      | CDCD => "R$ CDCD" | CICI => "R$ CICI"
      end.

Definition font_name (r : rule) : string :=
  match r with
  | CLIENTE | DATA => "Arial"
  | aBBa | HHHH | IIII | CDCD | CICI => "Inter"
  | _ => "Inter Bold"
  end.

Definition font_size (r : rule) : Z :=
  match r with
  | CLIENTE | DATA => 24
  | XX => 20
  | AAAA => 26
  | EEEE | FFFF | GGGG => 37
  | _ => 21
  end.

Definition centered (r : rule) : bool :=
  match r with
  | CLIENTE | DATA => false
  | _ => true
  end.

(** The field selector together with its formatting. *)
Definition rendered (h : host) (client discount : object)
    (before after : gmap string float) (r : rule) : result str :=
  match r with
  | CLIENTE => mret (lit "CLIENTE: " ++ format_object h client)
  | DATA => mret (lit "DATA: " ++ today h)
  | XX | YY => mret (format_object h discount ++ lit "%")
  | AAAA | AAAB => money (getitem before "total")
  | BBBB | aBBa | CDCD => money (getitem before "custo mínimo")
  | CCCC => money (getitem after "valor em energia")
  | DDDD | DDDB | EEEE | EEEB => money (savings before after)
  | FFFF => money (sv ← savings before after; mret (12 * sv)%float)
  | GGGG => money (sv ← savings before after; mret (60 * sv)%float)
  | HHHH => money (getitem before "valor em energia")
  | IIII => money (getitem before "iluminação pública")
  | CICI => money (getitem before "impostos")
  end.

(** The rules of the [elif] chain, in priority order. *)
Definition chain : list rule :=
  [ DATA; XX; YY; AAAA; AAAB; BBBB; aBBa; CCCC; DDDD; DDDB; EEEE; EEEB;
    FFFF; GGGG; HHHH; IIII; CDCD; CICI ].

(** The rules applied to a shape with the given text: the free-standing
    one when it matches, then the first match of the chain. *)
Definition fired (text : str) : list rule :=
  (if startswith text (pattern CLIENTE) then [CLIENTE] else [])
  ++ option_list (find (fun r => startswith text (pattern r)) chain).

Definition apply (h : host) (client discount : object)
    (before after : gmap string float) (r : rule) : stmt :=
  call_update (rendered h client discount before after r)
    (font_name r) (font_size r) (centered r).

Fixpoint run (h : host) (client discount : object)
    (before after : gmap string float) (rules : list rule) : stmt :=
  match rules with
  | [] => pass
  | r :: rules => seq (apply h client discount before after r)
                      (run h client discount before after rules)
  end.

End Catalog.

(** ** The resolver of the specification: one shape at a time *)

Module Resolver.
Import PowerPointUpdater.

(** What the render does to one shape and what it logs for it: only a
    text box with a text frame is looked at, with its text trimmed. *)
Definition resolve_shape (h : host) (client discount : object)
    (before after : gmap string float) (shape : Shape) : Shape * list log_record :=
  if decide (shape_type shape = TEXT_BOX) then
    match shape_text shape with
    | Ok text => _update_text_shape h shape (strip text) client discount before after []
    | Raise _ => (shape, [])
    end
  else (shape, []).

Definition resolve_slide (h : host) (client discount : object)
    (before after : gmap string float) (shapes : list Shape) : list Shape * list log_record :=
  let done := resolve_shape h client discount before after <$> shapes in
  (fst <$> done, concat (snd <$> done)).

Definition resolve_all (h : host) (client discount : object)
    (before after : gmap string float) (slides : list (list Shape))
  : list (list Shape) * list log_record :=
  let done := resolve_slide h client discount before after <$> slides in
  (fst <$> done, concat (snd <$> done)).

End Resolver.

(** ** Brazilian money format, as the specification words it *)

Module MoneyFormat.

(** The sign, the integer part in groups of three separated by [.], a
    [,] and two decimals; [cents] is the amount in hundredths. *)
Definition render (negative : bool) (cents : Z) : str :=
  sign_str negative ++ group3 (char ".") (nat_str (Z.to_N (cents / 100)))
    ++ lit "," ++ two_digits (cents mod 100).

(** The magnitude of a finite float in hundredths, nearest, ties to even. *)
Definition cents (x : spec_float) : Z :=
  match x with
  | S754_finite _ m e => scaled_half_even m e 2
  | _ => 0
  end.

Definition signbit (x : spec_float) : bool :=
  match x with
  | S754_zero s | S754_infinity s | S754_finite s _ _ => s
  | S754_nan => false
  end.

Definition finite (x : spec_float) : bool :=
  match x with
  | S754_zero _ | S754_finite _ _ _ => true
  | _ => false
  end.

Definition is_digit (c : N) : Prop := (char "0" <= c <= char "9")%N.

(** The number that a digit string denotes. *)
Definition number (digits : str) : N :=
  foldl (fun n c => n * 10 + (c - char "0"))%N 0%N digits.

End MoneyFormat.

(** ** Reading a formatted amount *)

Module Reading.

(** The digits of a string, in order. *)
Definition digits (s : str) : str :=
  List.filter (fun ch => (char "0" <=? ch) && (ch <=? char "9"))%N s.

(** Whether a "-" occurs in a string. *)
Definition negative (s : str) : bool := existsb (N.eqb (char "-")) s.

(** The characters of a formatted amount: digits, the two separators,
    the sign, and the letters of "inf" and "nan". *)
Definition money_char (ch : N) : Prop :=
  MoneyFormat.is_digit ch
  \/ ch ∈ [char "."; char ","; char "-"; char "i"; char "n"; char "f"; char "a"].

End Reading.

(** ** The cost model of the specification *)

Module BillingSpec.

(** [baseAllowance(connectionType)], in kWh per consumer unit. *)
Definition base_allowance (connection_type : string) : option Z :=
  if String.eqb connection_type "Trifásico" then Some 100
  else if String.eqb connection_type "Bifásico" then Some 50
  else if String.eqb connection_type "Monofásico" then Some 30
  else None.

(** The calculator of the source: an instance that holds the class
    constants. *)
Definition enel : FinancialCalculator.t :=
  {| FinancialCalculator.tariff_data := TarifaConstants.cls |}.

(** [|x - y| <= tol] *)
Definition close_to (tol x y : float) : bool := (abs (x - y) <=? tol)%float.

End BillingSpec.

(** ** Magnitudes of binary64 values *)

Module Magnitude.

(** The binary magnitude of [m * 2^e]: one more than the exponent of its
    leading bit. *)
Definition mag (m : positive) (e : Z) : Z := Z.log2 (Z.pos m) + 1 + e.

(** A value that is not zero, has sign [s] and is at least as large as
    [2^(L-1)]. *)
Definition big (s : bool) (L : Z) (x : spec_float) : Prop :=
  x = S754_infinity s \/ exists m e, x = S754_finite s m e /\ L <= mag m e.

End Magnitude.

(** ** Sample data *)

Module Sample.

Definition h : host :=
  {| float_repr := fun _ => lit "20.0"; today := lit "03/11/2026" |}.

(** A text box with one paragraph of one run. *)
Definition text_box (text : string) : Shape :=
  {| shape_type := TEXT_BOX;
     text_frame :=
       Some {| paragraphs :=
                 [ {| runs := [ {| run_text := lit text; run_font := no_font;
                                   run_alignment := None |} ];
                      paragraph_font := no_font;
                      paragraph_alignment := None |} ];
               word_wrap := None |} |}.

(** The same box after an update of its first run. *)
Definition filled_box (text font : string) (size : Z) : Shape :=
  {| shape_type := TEXT_BOX;
     text_frame :=
       Some {| paragraphs :=
                 [ {| runs := [ {| run_text := lit text;
                                   run_font := {| font_name := Some (lit font);
                                                  font_size := Some (Pt size) |};
                                   run_alignment := Some CENTER |} ];
                      paragraph_font := no_font;
                      paragraph_alignment := Some CENTER |} ];
               word_wrap := Some true |} |}.

Definition client_info : gmap string object :=
  {[ "cliente" := Str (lit "ACME"); "desconto" := Float 20 ]}.

(** A bill before with a total only, and an empty bill after. *)
Definition before : gmap string float := {[ "total" := 1234.5%float ]}.
Definition after : gmap string float := ∅.

(** A text box whose placeholder is split over two runs. *)
Definition split_box : Shape :=
  {| shape_type := TEXT_BOX;
     text_frame :=
       Some {| paragraphs :=
                 [ {| runs := [ {| run_text := lit "R$ "; run_font := no_font;
                                   run_alignment := None |};
                                {| run_text := lit "AAAA"; run_font := no_font;
                                   run_alignment := None |} ];
                      paragraph_font := no_font;
                      paragraph_alignment := None |} ];
               word_wrap := None |} |}.

End Sample.

(** * Properties *)

(** ** The run-time model on known values *)

Module PyExamples.

Example round_half_even :
  round 2.675 2 = 2.67%float /\ round 0.5 0 = 0%float /\ round 1.5 0 = 2%float
  /\ round 2.5 0 = 2%float /\ round 123456.78905 4 = 123456.7891%float
  /\ round 0.00015 4 = 0.0001%float /\ round (-0.00001) 4 = (-0)%float.
Proof. repeat split; vm_compute; reflexivity. Qed.

Example float_of_int_range :
  float_of_int (2 ^ 53 + 1) = Ok 9007199254740992%float
  /\ float_of_int (-7) = Ok (-7)%float
  /\ float_of_int (2 ^ 1024 - 2 ^ 970 - 1) = Ok 1.7976931348623157e308%float
  /\ float_of_int (2 ^ 1024 - 2 ^ 970) = Raise OverflowError.
Proof. repeat split; vm_compute; reflexivity. Qed.

Example format_comma_2f_values :
  format_comma_2f 1234567.891 = lit "1,234,567.89"
  /\ format_comma_2f 0.125 = lit "0.12"
  /\ format_comma_2f 999.995 = lit "1,000.00"
  /\ format_comma_2f (-0.001) = lit "-0.00"
  /\ format_comma_2f 1e22 = lit "10,000,000,000,000,000,000,000.00"
  /\ format_comma_2f neg_infinity = lit "-inf"
  /\ format_comma_2f nan = lit "nan".
Proof. repeat split; vm_compute; reflexivity. Qed.

Example strip_both_ends :
  strip (lit "  R$ aBBa  ") = lit "R$ aBBa"
  /\ strip ([ 9; 160; 8239 ]%N ++ lit "x y" ++ [ 10; 12288 ]%N) = lit "x y"
  /\ strip (8203%N :: lit "x") = 8203%N :: lit "x".
Proof. repeat split; vm_compute; reflexivity. Qed.

End PyExamples.

(** ** Binary64 arithmetic *)

Module Binary64.
Import Magnitude.

(** The number of binary digits of a mantissa. *)
Lemma digits2_log2 p : Z.pos (digits2_pos p) = Z.log2 (Z.pos p) + 1.
Proof.
  induction p as [p IH|p IH|]; simpl digits2_pos; try reflexivity.
  - rewrite Pos2Z.inj_succ, IH. change (Z.pos p~1) with (2 * Z.pos p + 1).
    rewrite Z.log2_succ_double by lia. lia.
  - rewrite Pos2Z.inj_succ, IH. change (Z.pos p~0) with (2 * Z.pos p).
    rewrite Z.log2_double by lia. lia.
Qed.

(** The iteration of the specification, counted in [nat]. *)
Lemma iter_pos_nat {A} (f : A -> A) p x :
  SpecFloat.iter_pos f p x = Nat.iter (Pos.to_nat p) f x.
Proof.
  revert x. induction p as [p IH|p IH|]; intros x; simpl SpecFloat.iter_pos.
  - rewrite !IH, Pos2Nat.inj_xI. rewrite <- Nat.iter_add.
    replace (Pos.to_nat p + Pos.to_nat p)%nat with (2 * Pos.to_nat p)%nat by lia.
    change (f x) with (Nat.iter 1 f x). rewrite <- Nat.iter_add. f_equal. lia.
  - rewrite !IH, Pos2Nat.inj_xO. rewrite <- Nat.iter_add. f_equal. lia.
  - reflexivity.
Qed.

(** One shift to the right halves the mantissa. *)
Lemma shr_1_m r : 0 <= shr_m r -> shr_m (shr_1 r) = shr_m r / 2.
Proof.
  destruct r as [m rb sb]. simpl. intros H.
  destruct m as [|[p|p|]|p]; simpl; try lia; try reflexivity.
  - change (Z.pos p~1) with (2 * Z.pos p + 1). apply (Z.div_unique _ _ _ 1); lia.
  - change (Z.pos p~0) with (2 * Z.pos p). apply (Z.div_unique _ _ _ 0); lia.
Qed.

(** [n] shifts divide the mantissa by [2^n]. *)
Lemma shr_iter_m n r :
  0 <= shr_m r -> shr_m (Nat.iter n shr_1 r) = shr_m r / 2 ^ Z.of_nat n.
Proof.
  intros H. induction n as [|n IH].
  - simpl. now rewrite Z.div_1_r.
  - rewrite Nat2Z.inj_succ, Z.pow_succ_r by lia. simpl Nat.iter.
    rewrite shr_1_m.
    + rewrite IH. rewrite Z.div_div by lia. f_equal. lia.
    + rewrite IH. apply Z.div_pos; lia.
Qed.

(** Shifting out [n] zero bits is exact. *)
Lemma shr_iter_exact n m :
  0 <= m ->
  Nat.iter n shr_1 {| shr_m := m * 2 ^ Z.of_nat n; shr_r := false; shr_s := false |}
  = {| shr_m := m; shr_r := false; shr_s := false |}.
Proof.
  intros Hm. revert m Hm. induction n as [|n IH]; intros m Hm.
  - simpl. now rewrite Z.mul_1_r.
  - rewrite Nat2Z.inj_succ, Z.pow_succ_r by lia.
    replace (m * (2 * 2 ^ Z.of_nat n)) with ((2 * m) * 2 ^ Z.of_nat n) by lia.
    rewrite Nat.iter_succ, (IH (2 * m)) by lia.
    destruct m as [|p|p]; try lia; reflexivity.
Qed.

(** Rounding a canonical float leaves it as it is. *)
Lemma binary_round_aux_canonical s m e :
  bounded prec emax m e = true ->
  binary_round_aux prec emax s (Z.pos m) e loc_Exact = S754_finite s m e.
Proof.
  unfold bounded, canonical_mantissa. intros H.
  apply andb_prop in H as [Hc He]. apply Z.eqb_eq in Hc.
  unfold binary_round_aux, shr_fexp. simpl Zdigits2. rewrite Hc, Z.sub_diag.
  cbn [shr shr_record_of_loc shr_m loc_of_shr_record round_nearest_even Zdigits2].
  rewrite Hc, Z.sub_diag. cbn [shr shr_record_of_loc shr_m]. now rewrite He.
Qed.

(** One is neutral for the multiplication of the specification ... *)
Lemma SF64mul_one_r x :
  valid_binary x = true ->
  SF64mul x (S754_finite false 4503599627370496 (-52)) = x.
Proof.
  destruct x as [s|s|  |s m e]; simpl; intros H; try reflexivity; try (now destruct s).
  unfold SF64mul. simpl SFmul.
  assert (Hs : xorb s false = s) by now destruct s. rewrite Hs.
  pose proof H as H'. unfold bounded, canonical_mantissa in H'.
  apply andb_prop in H' as [Hc He]. apply Z.eqb_eq in Hc.
  unfold binary_round_aux at 1. unfold shr_fexp at 1. simpl Zdigits2.
  rewrite digits2_log2 in *.
  change (Z.pos (m * 4503599627370496)) with (Z.pos m * 2 ^ Z.of_nat 52).
  rewrite Z.log2_mul_pow2 by lia.
  replace (Z.of_nat 52 + Z.log2 (Z.pos m) + 1 + (e + -52))
    with (Z.log2 (Z.pos m) + 1 + e) by lia.
  rewrite Hc. replace (e - (e + -52)) with 52 by lia.
  unfold shr. rewrite iter_pos_nat. cbn [shr_record_of_loc].
  change (Pos.to_nat 52) with 52%nat.
  rewrite (shr_iter_exact 52 (Z.pos m)) by lia.
  replace (e + -52 + 52) with e by lia.
  cbn [loc_of_shr_record round_nearest_even shr_m].
  unfold shr_fexp. cbn [Zdigits2]. rewrite digits2_log2, Hc, Z.sub_diag.
  cbn [shr shr_record_of_loc shr_m]. now rewrite He.
Qed.

(** ... and so for the multiplication of floats. *)
Lemma mul_one_r (x : float) : (x * 1)%float = x.
Proof.
  apply Prim2SF_inj. rewrite FloatAxioms.mul_spec.
  change (Prim2SF 1) with (S754_finite false 4503599627370496 (-52)).
  apply SF64mul_one_r, Prim2SF_valid.
Qed.


(** Above the least subnormal, the shift to the format's exponent keeps
    the magnitude and leaves a positive mantissa; the exponent that
    results is the format's, unless the input had too few digits. *)
Lemma shr_fexp_exp m e l :
  emin < mag m e ->
  exists r e' m', shr_fexp prec emax (Z.pos m) e l = (r, e')
                  /\ shr_m r = Z.pos m' /\ mag m' e' = mag m e
                  /\ e' = Z.max e (fexp prec emax (mag m e)).
Proof.
  unfold mag. intros H. unfold shr_fexp. cbn [Zdigits2]. rewrite digits2_log2.
  set (n := fexp prec emax (Z.log2 (Z.pos m) + 1 + e) - e).
  assert (Hn : n <= Z.log2 (Z.pos m)).
  { subst n. unfold fexp, SpecFloat.emin, prec, emax in *. lia. }
  assert (He : fexp prec emax (Z.log2 (Z.pos m) + 1 + e) = e + n) by (subst n; lia).
  rewrite He. clearbody n. unfold shr. destruct n as [|p|p].
  - exists (shr_record_of_loc (Z.pos m) l), e, m. repeat split; [|lia].
    now destruct l as [|[]].
  - rewrite iter_pos_nat.
    assert (Hq : shr_m (Nat.iter (Pos.to_nat p) shr_1 (shr_record_of_loc (Z.pos m) l))
                 = Z.pos m / 2 ^ Z.pos p).
    { rewrite shr_iter_m.
      - rewrite positive_nat_Z. now destruct l as [|[]].
      - destruct l as [|[]]; simpl; lia. }
    pose proof (Z.log2_shiftr (Z.pos m) (Z.pos p) ltac:(lia)) as Hl.
    rewrite Z.shiftr_div_pow2 in Hl by lia.
    assert (Hpos : 0 < Z.pos m / 2 ^ Z.pos p).
    { apply Z.div_str_pos. split; [apply Z.pow_pos_nonneg; lia|].
      apply Z.log2_le_pow2; lia. }
    destruct (Z.pos m / 2 ^ Z.pos p) as [|q|q] eqn:Eq; try lia.
    eexists _, _, q. repeat split; [exact Hq|lia|lia].
  - exists (shr_record_of_loc (Z.pos m) l), e, m. repeat split; [|lia].
    now destruct l as [|[]].
Qed.

(** Rounding to nearest does not make a positive mantissa smaller, and
    adds one bit at most. *)
Lemma round_nearest_even_bounds q l :
  exists q', round_nearest_even (Z.pos q) l = Z.pos q'
             /\ Z.log2 (Z.pos q) <= Z.log2 (Z.pos q') <= Z.log2 (Z.pos q) + 1.
Proof.
  assert (Hs : Z.log2 (Z.pos q) <= Z.log2 (Z.pos (q + 1)) <= Z.log2 (Z.pos q) + 1).
  { split; [apply Z.log2_le_mono; lia|].
    replace (Z.log2 (Z.pos q) + 1) with (Z.log2 (2 * Z.pos q))
      by (rewrite Z.log2_double; lia).
    apply Z.log2_le_mono. lia. }
  destruct l as [|[]]; cbn [round_nearest_even].
  - exists q. split; [reflexivity|lia].
  - destruct (Z.even (Z.pos q)).
    + exists q. split; [reflexivity|lia].
    + exists (q + 1)%positive. split; [reflexivity|exact Hs].
  - exists q. split; [reflexivity|lia].
  - exists (q + 1)%positive. split; [reflexivity|exact Hs].
Qed.

(** What rounding returns: the sign is kept, the magnitude grows by one
    at most, and the exponent is the format's unless the input had too
    few digits for it. *)
Lemma binary_round_aux_exp s m e l :
  emin < mag m e ->
  exists q e',
    binary_round_aux prec emax s (Z.pos m) e l
    = (if e' <=? emax - prec then S754_finite s q e' else S754_infinity s)
    /\ mag m e <= mag q e' <= mag m e + 1
    /\ e' = Z.max e (fexp prec emax (mag q e')).
Proof.
  intros H. unfold binary_round_aux.
  destruct (shr_fexp_exp m e l H) as (r & e1 & q1 & -> & Hq1 & Hm1 & He1).
  rewrite Hq1.
  destruct (round_nearest_even_bounds q1 (loc_of_shr_record r)) as (q' & -> & Hle).
  assert (H' : emin < mag q' e1) by (unfold mag in *; lia).
  destruct (shr_fexp_exp q' e1 loc_Exact H') as (r2 & e2 & q2 & -> & Hq2 & Hm2 & He2).
  rewrite Hq2. exists q2, e2. split; [reflexivity|]. split.
  - unfold mag in *. lia.
  - rewrite Hm2.
    assert (fexp prec emax (mag m e) <= fexp prec emax (mag q' e1)).
    { unfold fexp, mag in *. lia. }
    lia.
Qed.

(** Rounding keeps the sign and does not lose magnitude: the result is
    not zero. *)
Lemma binary_round_aux_big s m e l :
  emin < mag m e ->
  big s (mag m e) (binary_round_aux prec emax s (Z.pos m) e l).
Proof.
  intros H. destruct (binary_round_aux_exp s m e l H) as (q & e' & -> & Hm & _).
  destruct (e' <=? emax - prec).
  - right. exists q, e'. split; [reflexivity|lia].
  - now left.
Qed.

(** Appending [d] zero bits multiplies by [2^d]. *)
Lemma iter_xO_pow2 m d : Z.pos (Pos.iter xO m d) = Z.pos m * 2 ^ Z.pos d.
Proof.
  induction d as [|d IH] using Pos.peano_ind.
  - simpl. lia.
  - rewrite Pos.iter_succ, Pos2Z.inj_xO, IH, Pos2Z.inj_succ, Z.pow_succ_r by lia. lia.
Qed.

(** The alignment of a mantissa to a smaller exponent. *)
Lemma shl_align_value mx ex ex' :
  ex' <= ex ->
  Z.pos (fst (shl_align mx ex ex')) = Z.pos mx * 2 ^ (ex - ex')
  /\ snd (shl_align mx ex ex') = ex'.
Proof.
  intros H. unfold shl_align.
  destruct (ex' - ex) as [|p|p] eqn:E; try lia.
  - replace (ex - ex') with 0 by lia. simpl. split; lia.
  - cbn [fst snd]. rewrite iter_xO_pow2. split; [f_equal; f_equal; lia|reflexivity].
Qed.

(** [binary_round] aligns first, so that the exponent of what it returns
    is the format's. *)
Lemma binary_round_exp s m e :
  emin < mag m e ->
  exists q e',
    binary_round prec emax s m e
    = (if e' <=? emax - prec then S754_finite s q e' else S754_infinity s)
    /\ mag m e <= mag q e' <= mag m e + 1
    /\ e' = fexp prec emax (mag q e').
Proof.
  intros H. unfold binary_round, shl_align. rewrite digits2_log2. fold (mag m e).
  destruct (fexp prec emax (mag m e) - e) as [|p|p] eqn:E2.
  - destruct (binary_round_aux_exp s m e loc_Exact H) as (q & e' & Hr & Hm & He).
    exists q, e'. split; [exact Hr|]. split; [exact Hm|].
    assert (fexp prec emax (mag m e) <= fexp prec emax (mag q e')).
    { unfold fexp. lia. }
    lia.
  - destruct (binary_round_aux_exp s m e loc_Exact H) as (q & e' & Hr & Hm & He).
    exists q, e'. split; [exact Hr|]. split; [exact Hm|].
    assert (fexp prec emax (mag m e) <= fexp prec emax (mag q e')).
    { unfold fexp. lia. }
    lia.
  - assert (Hm : mag (Pos.iter xO m p) (fexp prec emax (mag m e)) = mag m e).
    { unfold mag at 1. rewrite iter_xO_pow2, Z.log2_mul_pow2 by lia.
      unfold mag at 2. lia. }
    destruct (binary_round_aux_exp s (Pos.iter xO m p) (fexp prec emax (mag m e))
                loc_Exact ltac:(lia)) as (q & e' & Hr & Hq & He).
    exists q, e'. split; [exact Hr|]. rewrite Hm in Hq. split; [exact Hq|].
    assert (fexp prec emax (mag m e) <= fexp prec emax (mag q e')).
    { unfold fexp. lia. }
    lia.
Qed.

(** In particular it keeps the sign and does not lose magnitude. *)
Lemma binary_round_big s m e :
  emin < mag m e ->
  big s (mag m e) (binary_round prec emax s m e).
Proof.
  intros H. destruct (binary_round_exp s m e H) as (q & e' & -> & Hm & _).
  destruct (e' <=? emax - prec).
  - right. exists q, e'. split; [reflexivity|lia].
  - now left.
Qed.

(** What a valid finite float is: at most 53 bits, an exponent in range,
    and exactly 53 bits unless the exponent is the least one. *)
Lemma bounded_facts m e :
  bounded prec emax m e = true ->
  Z.log2 (Z.pos m) <= 52 /\ emin <= e /\ e <= 971
  /\ (emin < e -> Z.log2 (Z.pos m) = 52).
Proof.
  unfold bounded, canonical_mantissa. intros H.
  apply andb_prop in H as [Hc He]. apply Z.eqb_eq in Hc. apply Z.leb_le in He.
  rewrite digits2_log2 in Hc.
  unfold fexp, SpecFloat.emin, prec, emax in *. lia.
Qed.

(** A large negative value times a positive one is negative and large,
    as long as the product stays above the least subnormal. *)
Lemma SFmul_big L x mt et :
  big true L x ->
  emin < L + mag mt et - 1 ->
  big true (L + mag mt et - 1) (SF64mul x (S754_finite false mt et)).
Proof.
  intros [->|(m & e & -> & Hm)] H.
  - now left.
  - unfold SF64mul. cbn [SFmul xorb].
    assert (Hmag : L + mag mt et - 1 <= mag (m * mt) (e + et)).
    { unfold mag in *. rewrite Pos2Z.inj_mul.
      pose proof (Z.log2_mul_below (Z.pos m) (Z.pos mt) ltac:(lia) ltac:(lia)). lia. }
    destruct (binary_round_aux_big true (m * mt) (e + et) loc_Exact ltac:(lia))
      as [->|(m' & e' & -> & Hm')].
    + now left.
    + right. exists m', e'. split; [reflexivity|lia].
Qed.

(** Such a value is below zero. *)
Lemma big_negative L x : big true L x -> SFltb x (S754_zero false) = true.
Proof. intros [->|(m & e & -> & _)]; reflexivity. Qed.

(** A number with fewer than [b + 1] bits is below [2^b]. *)
Lemma pow2_log2_lt a b : 0 < a -> 0 <= b -> Z.log2 a < b -> a < 2 ^ b.
Proof. intros. apply Z.log2_lt_pow2; lia. Qed.

(** The difference [x - y] for [x < y], with [y] normal and at least 64:
    negative, and at least [2^-47] in magnitude. *)
Lemma SFsub_big x my ey :
  valid_binary x = true ->
  bounded prec emax my ey = true ->
  Z.log2 (Z.pos my) = 52 ->
  -46 <= ey ->
  SFltb x (S754_finite false my ey) = true ->
  big true (-46) (SF64sub x (S754_finite false my ey)).
Proof.
  intros Hx Hy Hny Hey Hlt.
  destruct x as [s|s| |s mx ex]; try discriminate.
  - right. exists my, ey. split; [reflexivity|]. unfold mag. lia.
  - destruct s; [now left|discriminate].
  - cbn [valid_binary] in Hx. apply bounded_facts in Hx as (Hmx & Hex & _ & _).
    unfold SF64sub. cbn [SFsub cond_Zopp].
    set (ez := Z.min ex ey).
    destruct (shl_align_value mx ex ez ltac:(lia)) as [Ex _].
    destruct (shl_align_value my ey ez ltac:(lia)) as [Ey _].
    rewrite Ex, Ey. clear Ex Ey.
    assert (Hpy : 2 ^ 52 <= Z.pos my).
    { rewrite <- Hny. apply Z.log2_spec. lia. }
    assert (Hpx : Z.pos mx < 2 ^ 53).
    { apply pow2_log2_lt; lia. }
    assert (Hex0 : 0 < 2 ^ (ex - ez)) by (apply Z.pow_pos_nonneg; lia).
    assert (Hey0 : 0 < 2 ^ (ey - ez)) by (apply Z.pow_pos_nonneg; lia).
    destruct s.
    + (* a negative minuend *)
      cbn [cond_Zopp].
      set (D := Z.pos mx * 2 ^ (ex - ez) + Z.pos my * 2 ^ (ey - ez)).
      replace (- (Z.pos mx * 2 ^ (ex - ez)) - Z.pos my * 2 ^ (ey - ez)) with (- D)
        by (subst D; lia).
      assert (HD : Z.pos my * 2 ^ (ey - ez) <= D) by (subst D; nia).
      assert (HD0 : 0 < D) by nia.
      clearbody D. destruct D as [|d|d]; try lia.
      change (- Z.pos d) with (Z.neg d). cbn [binary_normalize].
      assert (Hmag : -46 <= mag d ez).
      { unfold mag. apply Z.log2_le_mono in HD.
        rewrite Z.log2_mul_pow2 in HD by lia. lia. }
      destruct (binary_round_big true d ez) as [->|(m' & e' & -> & Hm')];
        [unfold SpecFloat.emin, prec, emax; lia|now left|].
      right. exists m', e'. split; [reflexivity|lia].
    + (* a smaller non-negative minuend *)
      cbn [cond_Zopp]. unfold SFltb in Hlt. cbn [SFcompare] in Hlt.
      assert (Hcmp : ex < ey \/ (ex = ey /\ (mx ?= my)%positive = Lt)).
      { destruct (Z.compare_spec ex ey) as [E|E|E]; try discriminate; [right|left; lia].
        split; [exact E|].
        destruct (Pos.compare_cont Eq mx my) eqn:Ec; try discriminate.
        change (mx ?= my)%positive with (Pos.compare_cont Eq mx my).
        rewrite Ec. reflexivity. }
      assert (Hez : ez = ex) by (subst ez; lia). rewrite Hez in *.
      rewrite Z.sub_diag, Z.pow_0_r, Z.mul_1_r in *.
      set (D := Z.pos my * 2 ^ (ey - ex) - Z.pos mx).
      replace (Z.pos mx - Z.pos my * 2 ^ (ey - ex)) with (- D) by (subst D; lia).
      assert (HD0 : 0 < D).
      { subst D. destruct Hcmp as [Hc|[Hc Hm]].
        - assert (2 * 1 <= 2 ^ (ey - ex)).
          { change (2 * 1) with (2 ^ 1). apply Z.pow_le_mono_r; lia. }
          nia.
        - assert (Hm' : (mx < my)%positive) by exact Hm.
          rewrite Hc, Z.sub_diag, Z.pow_0_r. lia. }
      assert (Hmag : -46 <= mag (Z.to_pos D) ex).
      { unfold mag. rewrite Z2Pos.id by lia.
        destruct (Z_le_gt_dec (-47) ex) as [Hge|Hlt'].
        - pose proof (Z.log2_nonneg D). lia.
        - assert (Hb : 2 ^ 2 <= 2 ^ (ey - ex)) by (apply Z.pow_le_mono_r; lia).
          assert (HDl : 2 ^ (51 + (ey - ex)) <= D).
          { subst D. rewrite Z.pow_add_r by lia.
            assert (2 ^ 52 = 2 * 2 ^ 51) by reflexivity.
            assert (2 ^ 53 = 4 * 2 ^ 51) by reflexivity.
            assert (0 < 2 ^ 51) by reflexivity.
            change (2 ^ 2) with 4 in Hb. nia. }
          apply Z.log2_le_mono in HDl. rewrite Z.log2_pow2 in HDl by lia. lia. }
      clearbody D. destruct D as [|d|d]; try lia.
      change (- Z.pos d) with (Z.neg d). cbn [binary_normalize].
      cbn [Z.to_pos] in Hmag.
      destruct (binary_round_big true d ex) as [->|(m' & e' & -> & Hm')];
        [unfold SpecFloat.emin, prec, emax; lia|now left|].
      right. exists m', e'. split; [reflexivity|lia].
Qed.

(** A mantissa of 53 bits with an exponent in range is a valid float. *)
Lemma bounded_intro m e :
  Z.log2 (Z.pos m) = 52 -> emin <= e -> e <= 971 -> bounded prec emax m e = true.
Proof.
  intros Hm He1 He2. unfold bounded, canonical_mantissa.
  rewrite digits2_log2, Hm. apply andb_true_intro. split.
  - apply Z.eqb_eq. unfold fexp, SpecFloat.emin, prec, emax in *. lia.
  - apply Z.leb_le. unfold prec, emax. lia.
Qed.

(** An integer below [2^53] is a float: the conversion is exact. *)
Lemma binary_normalize_small z :
  0 < z < 2 ^ 53 ->
  exists m e,
    binary_normalize prec emax z 0 false = S754_finite false m e
    /\ bounded prec emax m e = true
    /\ Z.log2 (Z.pos m) = 52
    /\ e = Z.log2 z - 52
    /\ Z.pos m = z * 2 ^ (52 - Z.log2 z).
Proof.
  intros [Hz0 Hz]. destruct z as [|p|p]; try lia. cbn [binary_normalize].
  assert (Hl : Z.log2 (Z.pos p) <= 52).
  { apply Z.lt_succ_r. apply Z.log2_lt_pow2; lia. }
  pose proof (Z.log2_nonneg (Z.pos p)) as Hl0.
  unfold binary_round, shl_align. rewrite digits2_log2.
  assert (Hf : fexp prec emax (Z.log2 (Z.pos p) + 1 + 0) - 0 = Z.log2 (Z.pos p) - 52).
  { unfold fexp, SpecFloat.emin, prec, emax. lia. }
  rewrite Z.sub_0_r in Hf. rewrite Z.sub_0_r, Hf.
  destruct (Z.log2 (Z.pos p) - 52) as [|k|k] eqn:Ek; try lia.
  - assert (Hb : bounded prec emax p 0 = true).
    { apply bounded_intro; unfold SpecFloat.emin, prec, emax; lia. }
    exists p, 0. rewrite binary_round_aux_canonical by exact Hb.
    repeat split; try lia; try exact Hb.
    replace (52 - Z.log2 (Z.pos p)) with 0 by lia. lia.
  - assert (Hm : Z.log2 (Z.pos (Pos.iter xO p k)) = 52).
    { rewrite iter_xO_pow2, Z.log2_mul_pow2 by lia. lia. }
    assert (Hb : bounded prec emax (Pos.iter xO p k) (Z.neg k) = true).
    { apply bounded_intro; unfold SpecFloat.emin, prec, emax; lia. }
    exists (Pos.iter xO p k), (Z.neg k). rewrite binary_round_aux_canonical by exact Hb.
    repeat split; try lia; try exact Hb.
    rewrite iter_xO_pow2. f_equal. f_equal. lia.
Qed.

(** A finite float is not an infinity. *)
Lemma is_infinity_finite f s m e :
  Prim2SF f = S754_finite s m e -> is_infinity f = false.
Proof.
  intros H. unfold is_infinity. rewrite FloatAxioms.eqb_spec, abs_spec, H. reflexivity.
Qed.

(** The rounding of a non-zero integer: a valid float at least as large
    in magnitude, or an infinity, which takes at least 1024 bits. *)
Lemma binary_round_int s p :
  (exists m e, binary_round prec emax s p 0 = S754_finite s m e
               /\ bounded prec emax m e = true
               /\ mag p 0 <= mag m e
               /\ Z.pos p < 2 ^ 1024)
  \/ (binary_round prec emax s p 0 = S754_infinity s /\ 2 ^ 1023 <= Z.pos p).
Proof.
  pose proof (Z.log2_nonneg (Z.pos p)) as Hl.
  destruct (binary_round_exp s p 0) as (q & e & -> & Hm & He).
  { unfold mag, SpecFloat.emin, prec, emax. lia. }
  destruct (e <=? emax - prec) eqn:E.
  - apply Z.leb_le in E. left. exists q, e. split; [reflexivity|]. split.
    + unfold bounded, canonical_mantissa. rewrite digits2_log2. fold (mag q e).
      apply andb_true_intro. split; [apply Z.eqb_eq; lia|apply Z.leb_le; lia].
    + split; [lia|]. apply pow2_log2_lt; try lia.
      unfold fexp, mag, SpecFloat.emin, prec, emax in *. lia.
  - apply Z.leb_gt in E. right. split; [reflexivity|].
    apply Z.log2_le_pow2; [lia|].
    unfold fexp, mag, SpecFloat.emin, prec, emax in *. lia.
Qed.

(** One shift to the right moves the lowest bit to the round bit. *)
Lemma shr_1_r r : 0 <= shr_m r -> shr_r (shr_1 r) = Z.odd (shr_m r).
Proof.
  destruct r as [m rb sb]. simpl. intros H.
  destruct m as [|[p|p|]|p]; simpl; try lia; reflexivity.
Qed.

(** After [n + 1] shifts the round bit is bit [n] of the mantissa. *)
Lemma shr_iter_r n r :
  0 <= shr_m r ->
  shr_r (Nat.iter (S n) shr_1 r) = Z.odd (shr_m r / 2 ^ Z.of_nat n).
Proof.
  intros H. rewrite Nat.iter_succ, shr_1_r.
  - now rewrite shr_iter_m.
  - rewrite shr_iter_m by exact H. apply Z.div_pos; lia.
Qed.

(** The first shift of an integer of 1024 bits: 971 places. *)
Lemma shr_fexp_top p :
  Z.log2 (Z.pos p) = 1023 ->
  exists sb,
    shr_fexp prec emax (Z.pos p) 0 loc_Exact
    = ({| shr_m := Z.pos p / 2 ^ 971; shr_r := Z.odd (Z.pos p / 2 ^ 970); shr_s := sb |},
       971).
Proof.
  intros Hl. unfold shr_fexp. cbn [Zdigits2]. rewrite digits2_log2, Hl.
  change (fexp prec emax (1023 + 1 + 0) - 0) with 971.
  unfold shr. rewrite iter_pos_nat. cbn [shr_record_of_loc].
  set (R := Nat.iter (Pos.to_nat 971) shr_1
              {| shr_m := Z.pos p; shr_r := false; shr_s := false |}).
  assert (Hm : shr_m R = Z.pos p / 2 ^ 971).
  { unfold R. rewrite shr_iter_m by (cbn; lia). now rewrite positive_nat_Z. }
  assert (Hr : shr_r R = Z.odd (Z.pos p / 2 ^ 970)).
  { unfold R. change (Pos.to_nat 971) with (S 970). rewrite shr_iter_r by (cbn; lia).
    reflexivity. }
  destruct R as [m r sb]. cbn [shr_m shr_r] in Hm, Hr. subst m r.
  now exists sb.
Qed.

(** A mantissa of 53 bits at the largest exponent is left as it is. *)
Lemma shr_fexp_53 q :
  2 ^ 52 <= Z.pos q < 2 ^ 53 ->
  shr_fexp prec emax (Z.pos q) 971 loc_Exact
  = ({| shr_m := Z.pos q; shr_r := false; shr_s := false |}, 971).
Proof.
  intros Hq. assert (Hl : Z.log2 (Z.pos q) = 52).
  { apply Z.log2_unique; [lia|]. change (2 ^ (52 + 1)) with (2 ^ 53). lia. }
  unfold shr_fexp. cbn [Zdigits2]. rewrite digits2_log2, Hl. reflexivity.
Qed.

(** A mantissa of 1024 bits: its rounding to 53 bits carries into bit
    1025, and the result is an infinity, exactly from [2^1024 - 2^970]
    on. *)
Lemma binary_round_top s p :
  Z.log2 (Z.pos p) = 1023 ->
  if Z.pos p <? 2 ^ 1024 - 2 ^ 970
  then exists q, binary_round prec emax s p 0 = S754_finite s q 971
                 /\ bounded prec emax q 971 = true
  else binary_round prec emax s p 0 = S754_infinity s.
Proof.
  intros Hl.
  assert (Hp : 2 ^ 1023 <= Z.pos p < 2 ^ 1024).
  { destruct (Z.log2_spec (Z.pos p) ltac:(lia)) as [H1 H2]. rewrite Hl in H1, H2.
    exact (conj H1 H2). }
  unfold binary_round, shl_align. rewrite digits2_log2, Hl.
  change (fexp prec emax (1023 + 1 + 0) - 0) with 971.
  cbv iota beta. unfold binary_round_aux.
  destruct (shr_fexp_top p Hl) as [sb ->]. cbn [shr_m].
  set (A := 2 ^ 970) in *.
  assert (HA : 0 < A) by (unfold A; apply Z.pow_pos_nonneg; lia).
  assert (Hdd : Z.pos p / 2 ^ 971 = Z.pos p / A / 2).
  { change (2 ^ 971) with (A * 2). now rewrite Z.div_div by lia. }
  assert (H1023 : 2 ^ 1023 = 2 ^ 53 * A) by reflexivity.
  assert (H1024 : 2 ^ 1024 = 2 ^ 54 * A) by reflexivity.
  rewrite H1023, H1024 in Hp. rewrite H1024, Hdd. clear Hdd H1023 H1024.
  set (u := Z.pos p / A) in *.
  assert (Hu : 2 ^ 53 <= u < 2 ^ 54).
  { unfold u. split; [apply Z.div_le_lower_bound; lia|apply Z.div_lt_upper_bound; lia]. }
  assert (Hlt : (Z.pos p <? 2 ^ 54 * A - A) = (u <? 2 ^ 54 - 1)).
  { apply eq_iff_eq_true. rewrite !Z.ltb_lt. unfold u. split; intros H.
    - apply Z.div_lt_upper_bound; lia.
    - destruct (Z.lt_ge_cases (Z.pos p) (2 ^ 54 * A - A)) as [|Hge]; [assumption|].
      assert (2 ^ 54 - 1 <= Z.pos p / A) by (apply Z.div_le_lower_bound; lia). lia. }
  rewrite Hlt. clear Hlt.
  pose proof (Z.div_mod u 2 ltac:(lia)) as Hdm.
  pose proof (Z.mod_pos_bound u 2 ltac:(lia)) as Hmb.
  rewrite Zodd_mod.
  set (q := u / 2) in *.
  assert (Hq : 2 ^ 52 <= q < 2 ^ 53) by (change (2 ^ 53) with (2 * 2 ^ 52) in *;
    change (2 ^ 54) with (2 * (2 * 2 ^ 52)) in *; lia).
  clearbody q u. clear Hp HA A.
  destruct q as [|q|q]; try lia.
  assert (Hfin : forall N q', N = Z.pos q' -> 2 ^ 52 <= Z.pos q' < 2 ^ 53 ->
    exists q0 : positive,
      (let '(mrs'', e'') := shr_fexp prec emax N 971 loc_Exact in
       match shr_m mrs'' with
       | 0 => S754_zero s
       | Z.pos m => if e'' <=? emax - prec then S754_finite s m e'' else S754_infinity s
       | Z.neg _ => S754_nan
       end) = S754_finite s q0 971 /\ bounded prec emax q0 971 = true).
  { intros N q' -> Hq'. rewrite shr_fexp_53 by exact Hq'. cbn [shr_m].
    exists q'. split; [reflexivity|].
    apply bounded_intro; [|unfold SpecFloat.emin, prec, emax; lia|lia].
    apply Z.log2_unique; [lia|]. change (2 ^ (52 + 1)) with (2 ^ 53). lia. }
  destruct (u <? 2 ^ 54 - 1) eqn:E.
  - apply Z.ltb_lt in E.
    destruct (Z.eqb (u mod 2) 1) eqn:Eb; cbn [loc_of_shr_record].
    + apply Z.eqb_eq in Eb.
      assert (Z.pos q < 2 ^ 53 - 1) by (change (2 ^ 54) with (2 * 2 ^ 53) in *; lia).
      destruct sb; cbn [round_nearest_even].
      * apply (Hfin _ (q + 1)%positive); [reflexivity|lia].
      * destruct (Z.even (Z.pos q)).
        -- apply (Hfin _ q); [reflexivity|lia].
        -- apply (Hfin _ (q + 1)%positive); [reflexivity|lia].
    + destruct sb; cbn [round_nearest_even]; apply (Hfin _ q); (reflexivity || lia).
  - apply Z.ltb_ge in E.
    assert (Hq' : Z.pos q = 2 ^ 53 - 1) by (change (2 ^ 54) with (2 * 2 ^ 53) in *; lia).
    assert (Hb : u mod 2 = 1) by (change (2 ^ 54) with (2 * 2 ^ 53) in *; lia).
    rewrite Hb. change (1 =? 1) with true. injection Hq' as ->.
    destruct sb; reflexivity.
Qed.

(** The rounding of a non-zero integer is an infinity exactly from
    [2^1024 - 2^970] on; below, it is a valid float. *)
Lemma binary_round_range s p :
  if Z.pos p <? 2 ^ 1024 - 2 ^ 970
  then exists m e, binary_round prec emax s p 0 = S754_finite s m e
                   /\ bounded prec emax m e = true
  else binary_round prec emax s p 0 = S754_infinity s.
Proof.
  destruct (Z.lt_ge_cases (Z.pos p) (2 ^ 1023)) as [Hlo|Hlo].
  { assert (E : (Z.pos p <? 2 ^ 1024 - 2 ^ 970) = true).
    { apply Z.ltb_lt. change (2 ^ 1024) with (2 * 2 ^ 1023).
      assert (2 ^ 970 < 2 ^ 1023) by (apply Z.pow_lt_mono_r; lia). lia. }
    rewrite E. destruct (binary_round_int s p) as [(m & e & H & Hb & _)|[_ H]]; [|lia].
    now exists m, e. }
  destruct (Z.lt_ge_cases (Z.pos p) (2 ^ 1024)) as [Hhi|Hhi].
  { assert (Hl : Z.log2 (Z.pos p) = 1023).
    { apply Z.log2_unique; [lia|]. change (2 ^ (1023 + 1)) with (2 ^ 1024). lia. }
    pose proof (binary_round_top s p Hl) as H.
    destruct (Z.pos p <? 2 ^ 1024 - 2 ^ 970); [|exact H].
    destruct H as (q & H & Hb). now exists q, 971. }
  assert (E : (Z.pos p <? 2 ^ 1024 - 2 ^ 970) = false).
  { apply Z.ltb_ge. assert (0 < 2 ^ 970) by (apply Z.pow_pos_nonneg; lia). lia. }
  rewrite E. destruct (binary_round_int s p) as [(m & e & _ & _ & _ & H)|[H _]]; [lia|exact H].
Qed.

(** A large value of either sign times a positive one keeps its sign and
    stays large, as long as the product stays above the least
    subnormal. *)
Lemma SFmul_big_sign s L x mt et :
  big s L x ->
  emin < L + mag mt et - 1 ->
  big s (L + mag mt et - 1) (SF64mul x (S754_finite false mt et)).
Proof.
  intros [->|(m & e & -> & Hm)] H.
  - left. now destruct s.
  - unfold SF64mul. cbn [SFmul]. rewrite xorb_false_r.
    assert (Hmag : L + mag mt et - 1 <= mag (m * mt) (e + et)).
    { unfold mag in *. rewrite Pos2Z.inj_mul.
      pose proof (Z.log2_mul_below (Z.pos m) (Z.pos mt) ltac:(lia) ltac:(lia)). lia. }
    destruct (binary_round_aux_big s (m * mt) (e + et) loc_Exact ltac:(lia))
      as [->|(m' & e' & -> & Hm')].
    + now left.
    + right. exists m', e'. split; [reflexivity|lia].
Qed.

(** A large value of positive sign is above zero. *)
Lemma big_positive L x : big false L x -> SFltb (S754_zero false) x = true.
Proof. intros [->|(m & e & -> & _)]; reflexivity. Qed.

(** The difference [x - y] for [y < x], with [y] normal and at least 64:
    positive, and at least [2^-46] in magnitude. *)
Lemma SFsub_big_pos x my ey :
  valid_binary x = true ->
  bounded prec emax my ey = true ->
  Z.log2 (Z.pos my) = 52 ->
  -46 <= ey ->
  SFltb (S754_finite false my ey) x = true ->
  big false (-45) (SF64sub x (S754_finite false my ey)).
Proof.
  intros Hx Hy Hny Hey Hlt.
  destruct x as [s|s| |s mx ex]; try discriminate.
  - destruct s; [discriminate|now left].
  - destruct s; [discriminate|].
    cbn [valid_binary] in Hx. apply bounded_facts in Hx as (Hmx & Hex & _ & Hn).
    unfold SFltb in Hlt. cbn [SFcompare] in Hlt.
    assert (Hcmp : ey < ex \/ (ex = ey /\ (my < mx)%positive)).
    { destruct (Z.compare_spec ey ex) as [E|E|E]; try discriminate; [right|left; lia].
      split; [lia|].
      destruct (Pos.compare_cont Eq my mx) eqn:Ec; try discriminate. exact Ec. }
    unfold SF64sub. cbn [SFsub cond_Zopp].
    assert (Hez : Z.min ex ey = ey) by lia. rewrite Hez.
    destruct (shl_align_value mx ex ey ltac:(lia)) as [Ex _].
    destruct (shl_align_value my ey ey ltac:(lia)) as [Ey _].
    rewrite Ex, Ey. clear Ex Ey. rewrite Z.sub_diag, Z.pow_0_r, Z.mul_1_r.
    set (D := Z.pos mx * 2 ^ (ex - ey) - Z.pos my).
    assert (Hpy : Z.pos my < 2 ^ 53) by (apply pow2_log2_lt; lia).
    assert (HD0 : 0 < D).
    { subst D. destruct Hcmp as [Hc|[Hc Hm]].
      - assert (Hlx : Z.log2 (Z.pos mx) = 52).
        { apply Hn. unfold SpecFloat.emin, prec, emax. lia. }
        assert (Hpx : 2 ^ 52 <= Z.pos mx) by (rewrite <- Hlx; apply Z.log2_spec; lia).
        assert (2 * 1 <= 2 ^ (ex - ey)).
        { change (2 * 1) with (2 ^ 1). apply Z.pow_le_mono_r; lia. }
        change (2 ^ 53) with (2 * 2 ^ 52) in Hpy. nia.
      - rewrite Hc, Z.sub_diag, Z.pow_0_r. lia. }
    assert (Hmag : -45 <= mag (Z.to_pos D) ey).
    { unfold mag. rewrite Z2Pos.id by lia. pose proof (Z.log2_nonneg D). lia. }
    clearbody D. destruct D as [|d|d]; try lia.
    cbn [binary_normalize]. cbn [Z.to_pos] in Hmag.
    destruct (binary_round_big false d ey) as [->|(m' & e' & -> & Hm')];
      [unfold SpecFloat.emin, prec, emax; lia|now left|].
    right. exists m', e'. split; [reflexivity|lia].
Qed.

(** The difference of a float and itself is zero. *)
Lemma SFsub_diag m e :
  SF64sub (S754_finite false m e) (S754_finite false m e) = S754_zero false.
Proof.
  unfold SF64sub. cbn [SFsub cond_Zopp]. rewrite Z.min_id.
  destruct (shl_align_value m e e ltac:(lia)) as [E _]. rewrite E.
  now rewrite Z.sub_diag.
Qed.

End Binary64.

(** ** The tariff model and the billing calculator *)

Module Billing.
Import TarifaConstants FinancialCalculator BillingSpec Magnitude Binary64.

(** The four rates of the class constants. *)
Lemma get_tarifas_enel :
  get_tarifas cls
  = Ok (0.9503, 0.83202894736842103, 0.11830000000000007, 0.832)%float.
Proof. vm_compute. reflexivity. Qed.

(** The conversion of a positive int below [2^53] succeeds. *)
Lemma float_of_int_small z :
  0 < z < 2 ^ 53 ->
  exists k m e,
    float_of_int z = Ok k
    /\ Prim2SF k = S754_finite false m e
    /\ bounded prec emax m e = true
    /\ Z.log2 (Z.pos m) = 52
    /\ e = Z.log2 z - 52
    /\ Z.pos m = z * 2 ^ (52 - Z.log2 z).
Proof.
  intros Hz. destruct (binary_normalize_small z Hz) as (m & e & Hn & Hb & Hm & He & Hv).
  assert (Hp : Prim2SF (SF2Prim (S754_finite false m e)) = S754_finite false m e)
    by (apply Prim2SF_SF2Prim; exact Hb).
  exists (SF2Prim (S754_finite false m e)), m, e.
  split; [|auto].
  unfold float_of_int. rewrite Hn. cbv zeta.
  now rewrite (is_infinity_finite _ _ _ _ Hp).
Qed.

(** ... and the float it returns is the int. *)
Lemma float_of_int_exact z k :
  0 < z < 2 ^ 53 -> float_of_int z = Ok k -> float_eq_int k z = true.
Proof.
  intros Hz Hk. destruct (float_of_int_small z Hz) as (k' & m & e & Hk' & Hp & _ & _ & He & Hv).
  rewrite Hk in Hk'. injection Hk' as <-.
  unfold float_eq_int. rewrite Hp. cbn [cond_Zopp].
  assert (Hl : Z.log2 z <= 52).
  { apply Z.lt_succ_r. apply Z.log2_lt_pow2; lia. }
  destruct (0 <=? e) eqn:E.
  - apply Z.leb_le in E. apply Z.eqb_eq.
    replace e with 0 by lia. replace (52 - Z.log2 z) with 0 in Hv by lia. lia.
  - apply Z.eqb_eq. rewrite Hv. f_equal. f_equal. lia.
Qed.

(** The conversion of a positive int, when it succeeds, gives a valid
    positive float that is at least as large in magnitude. *)
Lemma float_of_int_inv z k :
  0 < z -> float_of_int z = Ok k ->
  exists m e,
    Prim2SF k = S754_finite false m e
    /\ bounded prec emax m e = true
    /\ Z.log2 z + 1 <= mag m e.
Proof.
  intros Hz Hk. destruct z as [|p|p]; try lia.
  unfold float_of_int in Hk. cbn [binary_normalize] in Hk.
  destruct (binary_round_int false p) as [(m & e & Hr & Hb & Hm & _)|[Hr _]];
    rewrite Hr in Hk; [|discriminate].
  assert (Hp : Prim2SF (SF2Prim (S754_finite false m e)) = S754_finite false m e)
    by (apply Prim2SF_SF2Prim; exact Hb).
  cbv zeta in Hk. rewrite (is_infinity_finite _ _ _ _ Hp) in Hk. injection Hk as <-.
  exists m, e. split; [exact Hp|]. split; [exact Hb|]. unfold mag in *. lia.
Qed.

(** An int that converts is below [2^1024] in absolute value. *)
Lemma float_of_int_bound z k : float_of_int z = Ok k -> Z.abs z < 2 ^ 1024.
Proof.
  intros Hk. unfold float_of_int in Hk.
  destruct z as [|p|p]; [reflexivity| |]; cbn [binary_normalize] in Hk.
  - destruct (binary_round_int false p) as [(m & e & _ & _ & _ & H)|[Hr _]];
      [exact H|]. rewrite Hr in Hk. discriminate.
  - destruct (binary_round_int true p) as [(m & e & _ & _ & _ & H)|[Hr _]];
      [exact H|]. rewrite Hr in Hk. discriminate.
Qed.

(** An int below [2^1023] in absolute value converts. *)
Lemma float_of_int_ok z : Z.abs z < 2 ^ 1023 -> exists k, float_of_int z = Ok k.
Proof.
  intros Hz. unfold float_of_int.
  destruct z as [|p|p]; [eexists; reflexivity| |]; cbn [binary_normalize].
  - destruct (binary_round_int false p) as [(m & e & -> & Hb & _)|[_ H]]; [|lia].
    cbv zeta. erewrite is_infinity_finite by (apply Prim2SF_SF2Prim; exact Hb). eauto.
  - destruct (binary_round_int true p) as [(m & e & -> & Hb & _)|[_ H]]; [|lia].
    cbv zeta. erewrite is_infinity_finite by (apply Prim2SF_SF2Prim; exact Hb). eauto.
Qed.

(** Where an int converts, so does every int of at most half its size. *)
Lemma float_of_int_half z z' k :
  2 * Z.abs z' <= Z.abs z -> float_of_int z = Ok k -> exists k', float_of_int z' = Ok k'.
Proof.
  intros Hle Hk. apply float_of_int_bound in Hk.
  apply float_of_int_ok. change (2 ^ 1024) with (2 * 2 ^ 1023) in Hk. lia.
Qed.


(** The bill before, once the rates and the two conversions are there. *)
Lemma calculate_bill_before_ok self pic dc c n f i t r k a ka :
  get_tarifas (tariff_data self) = Ok (f, i, t, r) ->
  float_of_int (n * 100) = Ok k ->
  base_allowance dc = Some a ->
  float_of_int (a * n) = Ok ka ->
  calculate_bill_before self pic dc c n
  = Ok ({[ "valor em energia" := ((c - k) * r)%float;
           "custo mínimo" := (ka * f)%float;
           "iluminação pública" := pic;
           "impostos" := ((c - k) * t)%float;
           "total" := ((c - k) * r + ka * f + pic + (c - k) * t)%float ]}
        : gmap string float).
Proof.
  intros Ht Hk Ha Hka. unfold calculate_bill_before.
  rewrite Ht. cbn [mbind result_bind mret result_ret]. rewrite Hk.
  cbn [mbind result_bind mret result_ret].
  unfold base_allowance in Ha.
  destruct (String.eqb dc "Trifásico") eqn:E3.
  { injection Ha as <-. rewrite Hka. reflexivity. }
  destruct (String.eqb dc "Monofásico") eqn:E1.
  { destruct (String.eqb dc "Bifásico") eqn:E2.
    - apply String.eqb_eq in E1, E2. congruence.
    - injection Ha as <-. rewrite Hka. reflexivity. }
  destruct (String.eqb dc "Bifásico") eqn:E2; [|discriminate].
  injection Ha as <-. rewrite Hka. reflexivity.
Qed.

(** An unrecognized connection type after a successful conversion. *)
Lemma calculate_bill_before_invalid self pic dc c n f i t r k :
  get_tarifas (tariff_data self) = Ok (f, i, t, r) ->
  float_of_int (n * 100) = Ok k ->
  base_allowance dc = None ->
  calculate_bill_before self pic dc c n
  = Raise (ValueError "Custo de disponibilidade inválido.").
Proof.
  intros Ht Hk Ha. unfold calculate_bill_before.
  rewrite Ht. cbn [mbind result_bind mret result_ret]. rewrite Hk.
  cbn [mbind result_bind mret result_ret].
  unfold base_allowance in Ha.
  destruct (String.eqb dc "Trifásico"); [discriminate|].
  destruct (String.eqb dc "Bifásico"); [discriminate|].
  destruct (String.eqb dc "Monofásico"); [discriminate|].
  reflexivity.
Qed.



(** The three allowances. *)
Lemma base_allowance_cases dc a :
  base_allowance dc = Some a -> a = 100 \/ a = 50 \/ a = 30.
Proof.
  unfold base_allowance.
  destruct (String.eqb dc "Trifásico"); [intros [= <-]; auto|].
  destruct (String.eqb dc "Bifásico"); [intros [= <-]; auto|].
  destruct (String.eqb dc "Monofásico"); [intros [= <-]; auto|discriminate].
Qed.

(** The product of a difference [c - k < 0] with a positive rate is
    negative: no rounding step of it reaches zero. *)
Lemma below_allowance_negative (c k rate : float) mk ek mr er :
  Prim2SF k = S754_finite false mk ek ->
  bounded prec emax mk ek = true ->
  Z.log2 (Z.pos mk) = 52 ->
  -46 <= ek ->
  Prim2SF rate = S754_finite false mr er ->
  -1000 <= mag mr er ->
  (c <? k)%float = true ->
  ((c - k) * rate <? 0)%float = true.
Proof.
  intros Hk Hb Hl He Hr Hm Hlt.
  rewrite FloatAxioms.ltb_spec, FloatAxioms.mul_spec, FloatAxioms.sub_spec, Hk, Hr.
  change (Prim2SF 0) with (S754_zero false).
  rewrite FloatAxioms.ltb_spec, Hk in Hlt.
  eapply big_negative, SFmul_big.
  - apply SFsub_big; auto using Prim2SF_valid.
  - unfold SpecFloat.emin, prec, emax. lia.
Qed.

(** C4, as amended. For a recognized connection type and a unit count
    of at least one, [n_ucs * 100] converts to a float whenever it is
    below 2^1023, and the float is [n_ucs * 100] exactly whenever that
    is below 2^53. Whenever it converts, to [k], [calculate_bill_before]
    returns a bill: the energy cost is
    [(consumption - k) * tarifa_injetada_real], the taxes are
    [(consumption - k) * impostos_nao_compensaveis], the total is
    [energy + minimum + pic + taxes]; a consumption below [k] is not
    rejected, and then the energy cost and the taxes are negative. *)
Theorem bill_before_below_allowance (pic c : float) (dc : string) (n a : Z) :
  base_allowance dc = Some a ->
  1 <= n ->
  (n * 100 < 2 ^ 1023 -> exists k, float_of_int (n * 100) = Ok k)
  /\ forall k, float_of_int (n * 100) = Ok k ->
     (n * 100 < 2 ^ 53 -> float_eq_int k (n * 100) = true)
     /\ exists fornecida injetada impostos injetada_real before energy taxes minimum,
          get_tarifas cls = Ok (fornecida, injetada, impostos, injetada_real)
          /\ calculate_bill_before enel pic dc c n = Ok before
          /\ before !! "valor em energia" = Some energy
          /\ energy = ((c - k) * injetada_real)%float
          /\ before !! "impostos" = Some taxes
          /\ taxes = ((c - k) * impostos)%float
          /\ before !! "custo mínimo" = Some minimum
          /\ before !! "iluminação pública" = Some pic
          /\ before !! "total" = Some (energy + minimum + pic + taxes)%float
          /\ ((c <? k)%float = true ->
              (energy <? 0)%float = true /\ (taxes <? 0)%float = true).
Proof.
  intros Ha Hn1. split.
  { intros Hn2. apply float_of_int_ok. lia. }
  intros k Hk. split.
  { intros Hn2. apply float_of_int_exact; [lia|exact Hk]. }
  destruct (float_of_int_inv (n * 100) k ltac:(lia) Hk) as (mk & ek & Hpk & Hbk & Hmk).
  assert (Hl : 6 <= Z.log2 (n * 100)).
  { change 6 with (Z.log2 100). apply Z.log2_le_mono. lia. }
  destruct (bounded_facts mk ek Hbk) as (Hl1 & He1 & He2 & Hc).
  assert (Hek : -46 <= ek) by (unfold mag in Hmk; lia).
  assert (Hlk : Z.log2 (Z.pos mk) = 52).
  { apply Hc. unfold SpecFloat.emin, prec, emax. lia. }
  assert (Hka : exists ka, float_of_int (a * n) = Ok ka).
  { destruct (base_allowance_cases dc a Ha) as [->|[->| ->]].
    - exists k. now rewrite Z.mul_comm.
    - apply (float_of_int_half (n * 100) _ k); [lia|exact Hk].
    - apply (float_of_int_half (n * 100) _ k); [lia|exact Hk]. }
  destruct Hka as [ka Hka].
  pose proof (calculate_bill_before_ok enel pic dc c n _ _ _ _ k a ka
                get_tarifas_enel Hk Ha Hka) as Hb.
  eexists _, _, _, _, _, _, _, _.
  split; [exact get_tarifas_enel|].
  split; [exact Hb|].
  split; [reflexivity|]. split; [reflexivity|].
  split; [reflexivity|]. split; [reflexivity|].
  split; [reflexivity|]. split; [reflexivity|].
  split; [reflexivity|].
  intros Hlt. split.
  - apply (below_allowance_negative c k _ mk ek 7493989779944505 (-53));
      auto; try reflexivity; vm_compute; discriminate.
  - apply (below_allowance_negative c k _ mk ek 8524413374686880 (-56));
      auto; try reflexivity; vm_compute; discriminate.
Qed.


Lemma bill_before_below_allowance_witness :
  exists before energy taxes,
    calculate_bill_before enel 30 "Trifásico" 50 1 = Ok before
    /\ before !! "valor em energia" = Some energy
    /\ before !! "impostos" = Some taxes
    /\ (energy <? 0)%float = true
    /\ (taxes <? 0)%float = true.
Proof.
  destruct (bill_before_below_allowance 30 50 "Trifásico" 1 100) as [_ Hbill];
    [reflexivity | lia |].
  destruct (Hbill 100%float eq_refl)
    as (_ & f & i & t & r & before & energy & taxes & minimum
        & _ & Hb & He & _ & Ht & _ & _ & _ & _ & Hneg).
  exists before, energy, taxes.
  destruct (Hneg eq_refl) as [H1 H2]. auto.
Defined.

(** C4, as stated, fails twice. A unit count beyond the float range makes
    the conversion of [n_ucs * 100] raise, so no bill is returned; and
    where [n_ucs * 100] is not a float (here it rounds down by 4), a
    consumption equal to the rounded value is below [n_ucs * 100], yet the
    energy cost and the taxes are zero, not negative. *)
Lemma bill_before_large_unit_count :
  calculate_bill_before enel 0 "Trifásico" 0 (2 ^ 1024) = Raise OverflowError
  /\ float_eq_int 36028797018964096 36028797018964096 = true
  /\ 36028797018964096 < 360287970189641 * 100
  /\ (before ← calculate_bill_before enel 0 "Trifásico"
                  36028797018964096 360287970189641;
      energy ← getitem before "valor em energia";
      taxes ← getitem before "impostos";
      mret (energy, taxes)) = Ok (0%float, 0%float).
Proof. repeat split; vm_compute; reflexivity. Qed.




(** Where the unit count is beyond the float range, the conversion in the
    energy-cost line raises before the connection type is looked at. *)
Lemma bill_before_invalid_type_large_unit_count :
  calculate_bill_before enel 30 "Tetrafásico" 1000 (2 ^ 1024) = Raise OverflowError.
Proof. vm_compute. reflexivity. Qed.


(** The shape of every bill that [calculate_bill_before] returns. *)
Lemma calculate_bill_before_inv self pic dc c n before :
  calculate_bill_before self pic dc c n = Ok before ->
  exists energy minimum taxes,
    before = ({[ "valor em energia" := energy;
                 "custo mínimo" := minimum;
                 "iluminação pública" := pic;
                 "impostos" := taxes;
                 "total" := (energy + minimum + pic + taxes)%float ]}
              : gmap string float).
Proof.
  unfold calculate_bill_before.
  destruct (get_tarifas (tariff_data self)) as [[[[f i] t] r]|e]; [|discriminate].
  cbn [mbind result_bind mret result_ret].
  destruct (float_of_int (n * 100)) as [k|e]; [|discriminate].
  cbn [mbind result_bind mret result_ret].
  destruct (String.eqb dc "Trifásico");
    [|destruct (String.eqb dc "Monofásico");
      [|destruct (String.eqb dc "Bifásico"); [|discriminate]]].
  all: match goal with |- context [float_of_int ?z] =>
         destruct (float_of_int z) as [ka|e]; [|discriminate] end.
  all: cbn [mbind result_bind mret result_ret]; intros [= <-]; eauto.
Qed.

(** What [calculate_bill_after] returns: the four components of the bill
    before, the energy cost among them as it was, and a total in which
    the energy cost is discounted. *)
Lemma calculate_bill_after_eq self pic dc c n d energy minimum taxes total :
  calculate_bill_before self pic dc c n
  = Ok ({[ "valor em energia" := energy;
           "custo mínimo" := minimum;
           "iluminação pública" := pic;
           "impostos" := taxes;
           "total" := total ]} : gmap string float) ->
  calculate_bill_after self pic dc c n d
  = Ok ({[ "valor em energia" := energy;
           "custo mínimo" := minimum;
           "iluminação pública" := pic;
           "impostos" := taxes;
           "total" := (taxes + pic + minimum + energy * (1 - d / 100))%float ]}
        : gmap string float).
Proof. intros H. unfold calculate_bill_after. rewrite H. reflexivity. Qed.

(** C6, as amended. With a zero discount the total after is the sum
    [taxes + pic + minimum + energy] of the four components of the bill
    before, added in this order; the total before is
    [energy + minimum + pic + taxes]. *)
Theorem bill_after_zero_discount (self : FinancialCalculator.t) (pic c : float)
    (dc : string) (n : Z) (before : gmap string float) :
  calculate_bill_before self pic dc c n = Ok before ->
  exists after energy minimum taxes,
    calculate_bill_after self pic dc c n 0 = Ok after
    /\ before !! "valor em energia" = Some energy
    /\ before !! "custo mínimo" = Some minimum
    /\ before !! "iluminação pública" = Some pic
    /\ before !! "impostos" = Some taxes
    /\ before !! "total" = Some (energy + minimum + pic + taxes)%float
    /\ after !! "total" = Some (taxes + pic + minimum + energy)%float.
Proof.
  intros H. destruct (calculate_bill_before_inv _ _ _ _ _ _ H) as (e & m & t & ->).
  eexists _, e, m, t. split; [exact (calculate_bill_after_eq _ _ _ _ _ _ _ _ _ _ H)|].
  repeat split.
  change (1 - 0 / 100)%float with 1%float. now rewrite mul_one_r.
Qed.

Lemma bill_after_zero_discount_witness :
  exists before after,
    calculate_bill_before enel 30 "Trifásico" 1000 1 = Ok before
    /\ calculate_bill_after enel 30 "Trifásico" 1000 1 0 = Ok after
    /\ after !! "total"
       = Some (106.47000000000007 + 30 + 95.030000000000001 + 748.79999999999995)%float.
Proof.
  destruct (bill_after_zero_discount enel 30 1000 "Trifásico" 1 _ eq_refl)
    as (after & e & m & t & Ha & He & Hm & _ & Ht & _ & Htot).
  eexists _, after. split; [reflexivity|]. split; [exact Ha|].
  vm_compute in He, Hm, Ht. injection He as <-. injection Hm as <-. injection Ht as <-.
  exact Htot.
Defined.

(** C6, as stated, fails on the example of the specification: the two
    totals are sums of the same four numbers in different orders, and
    they round differently. *)
Lemma bill_after_zero_discount_differs :
  exists before after total_before total_after,
    calculate_bill_before enel 30 "Trifásico" 1000 1 = Ok before
    /\ calculate_bill_after enel 30 "Trifásico" 1000 1 0 = Ok after
    /\ before !! "total" = Some total_before
    /\ after !! "total" = Some total_after
    /\ total_before = 980.29999999999995%float
    /\ total_after = 980.30000000000007%float
    /\ (total_before =? total_after)%float = false.
Proof.
  eexists _, _, _, _. split; [reflexivity|]. split; [reflexivity|].
  split; [vm_compute; reflexivity|]. split; [vm_compute; reflexivity|].
  repeat split.
Qed.

(** C1: the code at a full discount. The bill after carries the energy
    cost of the bill before, 748.8, where a discount of 100 percent makes
    it zero; the total, 231.5, is the sum with the discounted energy
    cost, that is with zero. *)
Theorem bill_after_full_discount_keeps_energy :
  exists before after,
    calculate_bill_before enel 30 "Trifásico" 1000 1 = Ok before
    /\ calculate_bill_after enel 30 "Trifásico" 1000 1 100 = Ok after
    /\ before !! "valor em energia" = Some 748.79999999999995%float
    /\ after !! "valor em energia" = Some 748.79999999999995%float
    /\ (748.79999999999995 * (1 - 100 / 100))%float = 0%float
    /\ after !! "total" = Some (106.47000000000007 + 30 + 95.030000000000001 + 0)%float.
Proof.
  eexists _, _. split; [reflexivity|]. split; [reflexivity|].
  repeat split; vm_compute; reflexivity.
Qed.


(** C2, as amended. With the constants of the class, three-phase, 1000
    kWh, one unit, 30 of public illumination and a discount of 20
    percent: [tarifa_fornecida] is 0.9503, the minimum cost before is
    95.03, and the total after, 830.54, is below the total before,
    980.30. *)
Theorem tariff_example :
  exists before after,
    get_tarifas cls
    = Ok (0.9503, 0.83202894736842103, 0.11830000000000007, 0.832)%float
    /\ calculate_bill_before enel 30 "Trifásico" 1000 1 = Ok before
    /\ calculate_bill_after enel 30 "Trifásico" 1000 1 20 = Ok after
    /\ before !! "custo mínimo" = Some 95.030000000000001%float
    /\ before !! "total" = Some 980.29999999999995%float
    /\ after !! "total" = Some 830.54000000000008%float
    /\ (830.54000000000008 <? 980.29999999999995)%float = true.
Proof.
  eexists _, _. split; [exact get_tarifas_enel|].
  split; [reflexivity|]. split; [reflexivity|].
  repeat split; vm_compute; reflexivity.
Qed.

(** C2, as stated, fails: [tarifa_fornecida] is not within 0.001 of
    0.9528, and the minimum cost is not within 0.1 of 95.28. *)
Lemma tariff_example_not_as_stated :
  ~ (exists f i t r, get_tarifas cls = Ok (f, i, t, r)
                     /\ close_to 0.001 f 0.9528 = true)
  /\ ~ (exists before m,
          calculate_bill_before enel 30 "Trifásico" 1000 1 = Ok before
          /\ before !! "custo mínimo" = Some m
          /\ close_to 0.1 m 95.28 = true).
Proof.
  split.
  - intros (f & i & t & r & Hg & Hc). rewrite get_tarifas_enel in Hg.
    injection Hg as <- _ _ _. vm_compute in Hc. discriminate.
  - intros (before & m & Hb & Hm & Hc).
    injection Hb as <-. vm_compute in Hm. injection Hm as <-.
    vm_compute in Hc. discriminate.
Qed.

(** C3. For any constants the derivation computes what the formulas
    say. When one of the two divisors is zero, the division raises and
    nothing is returned. Otherwise [tarifa fornecida] is the quotient of
    the applied tariff rounded to 4 places, [tarifa injetada
    compartilhada] is the sum of the two quotients, not rounded, [tarifa
    injetada real] is that sum rounded to 4 places, and [impostos não
    compensáveis] is the difference of the two rounded rates;
    [get_tarifas] hands out these four. *)
Theorem derived_rates (c : TarifaConstants.t) :
  let d1 := ((1 - ICMS c) * (1 - PISCOF c))%float in
  let d2 := (1 - PISCOF c)%float in
  if ((d1 =? 0) || (d2 =? 0))%float then
    calculate_derived_rates c = Raise ZeroDivisionError
    /\ get_tarifas c = Raise ZeroDivisionError
  else
    exists rates fornecida compartilhada real impostos,
      calculate_derived_rates c = Ok rates
      /\ rates !! "tarifa fornecida" = Some fornecida
      /\ fornecida = round ((TE_ENEL_CE c + TUSD_ENEL_CE c) / d1)%float 4
      /\ rates !! "tarifa injetada compartilhada" = Some compartilhada
      /\ compartilhada = (TE_ENEL_CE c / d1 + TUSD_ENEL_CE c / d2)%float
      /\ rates !! "tarifa injetada real" = Some real
      /\ real = round compartilhada 4
      /\ rates !! "impostos não compensáveis" = Some impostos
      /\ impostos = (fornecida - real)%float
      /\ get_tarifas c = Ok (fornecida, compartilhada, impostos, real).
Proof.
  intros d1 d2.
  pose proof (eq_refl (calculate_derived_rates c)) as Hr.
  unfold calculate_derived_rates at 2 in Hr. unfold truediv in Hr.
  fold d1 d2 in Hr.
  destruct (d1 =? 0)%float eqn:H1; cbn [orb].
  - cbn [mbind result_bind mret result_ret] in Hr.
    split; [exact Hr|]. unfold get_tarifas. now rewrite Hr.
  - destruct (d2 =? 0)%float eqn:H2.
    + cbn [mbind result_bind mret result_ret] in Hr.
      split; [exact Hr|]. unfold get_tarifas. now rewrite Hr.
    + cbn [mbind result_bind mret result_ret] in Hr.
      eexists _, _, _, _, _. split; [exact Hr|].
      repeat split. unfold get_tarifas. rewrite Hr. reflexivity.
Qed.

Lemma derived_rates_witness :
  exists rates,
    calculate_derived_rates cls = Ok rates
    /\ rates !! "tarifa fornecida" = Some 0.9503%float
    /\ rates !! "tarifa injetada real" = Some 0.832%float
    /\ rates !! "impostos não compensáveis" = Some (0.9503 - 0.832)%float.
Proof.
  pose proof (derived_rates cls) as H. cbv zeta in H.
  change (((1 - ICMS cls) * (1 - PISCOF cls) =? 0) || (1 - PISCOF cls =? 0))%float
    with false in H.
  destruct H as (rates & f & s & r & t & Hr & Hf & Ef & _ & Es & Hl & El & Ht & Et & _).
  exists rates. split; [exact Hr|].
  assert (Ef' : f = 0.9503%float) by (rewrite Ef; vm_compute; reflexivity).
  assert (El' : r = 0.832%float) by (rewrite El, Es; vm_compute; reflexivity).
  rewrite <- Ef', <- El'. rewrite <- Et. auto.
Defined.

(** Constants with a zero divisor: nothing is derived. *)
Lemma derived_rates_zero_divisor :
  calculate_derived_rates
    {| TE_ENEL_CE := 0.27291; TUSD_ENEL_CE := 0.44929; ICMS := 1; PISCOF := 0.05 |}
  = Raise ZeroDivisionError.
Proof. reflexivity. Qed.

(** [float(z)] raises exactly from [2^1024 - 2^970] on, the midpoint
    between the largest float and [2^1024]. *)
Lemma float_of_int_threshold z :
  if Z.abs z <? 2 ^ 1024 - 2 ^ 970
  then exists k, float_of_int z = Ok k
  else float_of_int z = Raise OverflowError.
Proof.
  unfold float_of_int.
  destruct z as [|p|p]; [eexists; reflexivity| |]; cbn [binary_normalize Z.abs].
  - change (Z.abs (Z.pos p)) with (Z.pos p).
    pose proof (binary_round_range false p) as H.
    destruct (Z.pos p <? 2 ^ 1024 - 2 ^ 970).
    + destruct H as (m & e & -> & Hb). cbv zeta.
      erewrite is_infinity_finite by (apply Prim2SF_SF2Prim; exact Hb).
      eexists. reflexivity.
    + now rewrite H.
  - change (Z.abs (Z.neg p)) with (Z.pos p).
    pose proof (binary_round_range true p) as H.
    destruct (Z.pos p <? 2 ^ 1024 - 2 ^ 970).
    + destruct H as (m & e & -> & Hb). cbv zeta.
      erewrite is_infinity_finite by (apply Prim2SF_SF2Prim; exact Hb).
      eexists. reflexivity.
    + now rewrite H.
Qed.

(** X1. What [calculate_bill_before] does is decided by the unit count
    and the connection type. From [|n_ucs * 100| = 2^1024 - 2^970] on, the
    conversion of the energy-cost line raises [OverflowError], whatever the
    connection type. Below, an unrecognized connection type raises the
    [ValueError], and a recognized one gives the bill with its five
    entries: the unit count may be zero or negative. *)
Theorem bill_before_outcome (self : FinancialCalculator.t) (pic c : float)
    (dc : string) (n : Z) (f i t r : float) :
  get_tarifas (tariff_data self) = Ok (f, i, t, r) ->
  if Z.abs (n * 100) <? 2 ^ 1024 - 2 ^ 970 then
    match base_allowance dc with
    | Some a =>
        exists k ka,
          float_of_int (n * 100) = Ok k
          /\ float_of_int (a * n) = Ok ka
          /\ calculate_bill_before self pic dc c n
             = Ok ({[ "valor em energia" := ((c - k) * r)%float;
                      "custo mínimo" := (ka * f)%float;
                      "iluminação pública" := pic;
                      "impostos" := ((c - k) * t)%float;
                      "total" := ((c - k) * r + ka * f + pic + (c - k) * t)%float ]}
                   : gmap string float)
    | None =>
        calculate_bill_before self pic dc c n
        = Raise (ValueError "Custo de disponibilidade inválido.")
    end
  else calculate_bill_before self pic dc c n = Raise OverflowError.
Proof.
  intros Ht. pose proof (float_of_int_threshold (n * 100)) as Hk.
  destruct (Z.abs (n * 100) <? 2 ^ 1024 - 2 ^ 970) eqn:E.
  - destruct Hk as [k Hk]. apply Z.ltb_lt in E.
    destruct (base_allowance dc) as [a|] eqn:Ha.
    + assert (Hka : exists ka, float_of_int (a * n) = Ok ka).
      { pose proof (float_of_int_threshold (a * n)) as H.
        assert (Hlt : (Z.abs (a * n) <? 2 ^ 1024 - 2 ^ 970) = true).
        { apply Z.ltb_lt. destruct (base_allowance_cases dc a Ha) as [->|[->| ->]]; lia. }
        now rewrite Hlt in H. }
      destruct Hka as [ka Hka]. exists k, ka. split; [exact Hk|]. split; [exact Hka|].
      exact (calculate_bill_before_ok self pic dc c n f i t r k a ka Ht Hk Ha Hka).
    + exact (calculate_bill_before_invalid self pic dc c n f i t r k Ht Hk Ha).
  - unfold calculate_bill_before. rewrite Ht. cbn [mbind result_bind mret result_ret].
    now rewrite Hk.
Qed.

Lemma bill_before_outcome_witness :
  calculate_bill_before enel 30 "Tetrafásico" 1000 (2 ^ 1018) = Raise OverflowError
  /\ calculate_bill_before enel 30 "Tetrafásico" 1000 (-3)
     = Raise (ValueError "Custo de disponibilidade inválido.")
  /\ exists before, calculate_bill_before enel 30 "Monofásico" 1000 (-3) = Ok before.
Proof.
  split; [|split].
  - exact (bill_before_outcome enel 30 1000 "Tetrafásico" (2 ^ 1018) _ _ _ _
             get_tarifas_enel).
  - exact (bill_before_outcome enel 30 1000 "Tetrafásico" (-3) _ _ _ _ get_tarifas_enel).
  - destruct (bill_before_outcome enel 30 1000 "Monofásico" (-3) _ _ _ _ get_tarifas_enel)
      as (k & ka & _ & _ & H).
    eexists. exact H.
Defined.

(** X2. [calculate_bill_after] raises what [calculate_bill_before]
    raises on the same arguments, whatever the discount. Where the bill
    before is returned, the bill after has the same five keys: the energy
    cost, the minimum cost, the public illumination and the taxes are
    those of the bill before, the energy cost undiscounted, and the total
    is [taxes + pic + minimum + energy * (1 - discount / 100)]. *)
Theorem bill_after_from_before (self : FinancialCalculator.t) (pic c : float)
    (dc : string) (n : Z) (d : float) :
  match calculate_bill_before self pic dc c n with
  | Raise e => calculate_bill_after self pic dc c n d = Raise e
  | Ok before =>
      exists energy minimum taxes after,
        before !! "valor em energia" = Some energy
        /\ before !! "custo mínimo" = Some minimum
        /\ before !! "impostos" = Some taxes
        /\ calculate_bill_after self pic dc c n d = Ok after
        /\ dom after = dom before
        /\ (forall key, key <> "total" -> after !! key = before !! key)
        /\ after !! "total"
           = Some (taxes + pic + minimum + energy * (1 - d / 100))%float
  end.
Proof.
  destruct (calculate_bill_before self pic dc c n) as [before|e] eqn:Hb.
  - destruct (calculate_bill_before_inv _ _ _ _ _ _ Hb) as (energy & minimum & taxes & ->).
    exists energy, minimum, taxes. eexists.
    split; [reflexivity|]. split; [reflexivity|]. split; [reflexivity|].
    split; [exact (calculate_bill_after_eq _ _ _ _ _ d _ _ _ _ Hb)|].
    split; [|split; [|reflexivity]].
    + rewrite !dom_insert_L. reflexivity.
    + intros key Hkey.
      destruct (decide (key = "valor em energia")) as [->|H1]; [reflexivity|].
      destruct (decide (key = "custo mínimo")) as [->|H2]; [reflexivity|].
      destruct (decide (key = "iluminação pública")) as [->|H3]; [reflexivity|].
      destruct (decide (key = "impostos")) as [->|H4]; [reflexivity|].
      rewrite !lookup_insert_ne by congruence.
      rewrite !lookup_singleton_ne by congruence. reflexivity.
  - unfold calculate_bill_after. now rewrite Hb.
Qed.



(** The product of a difference [c - k > 0] with a positive rate is
    positive: no rounding step of it reaches zero. *)
Lemma above_allowance_positive (c k rate : float) mk ek mr er :
  Prim2SF k = S754_finite false mk ek ->
  bounded prec emax mk ek = true ->
  Z.log2 (Z.pos mk) = 52 ->
  -46 <= ek ->
  Prim2SF rate = S754_finite false mr er ->
  -1000 <= mag mr er ->
  (k <? c)%float = true ->
  (0 <? (c - k) * rate)%float = true.
Proof.
  intros Hk Hb Hl He Hr Hm Hlt.
  rewrite FloatAxioms.ltb_spec, FloatAxioms.mul_spec, FloatAxioms.sub_spec, Hk, Hr.
  change (Prim2SF 0) with (S754_zero false).
  rewrite FloatAxioms.ltb_spec, Hk in Hlt.
  eapply big_positive, SFmul_big_sign.
  - apply SFsub_big_pos; auto using Prim2SF_valid.
  - unfold SpecFloat.emin, prec, emax. lia.
Qed.

(** ... and the product of [c - k] for [c = k] is zero. *)
Lemma at_allowance_zero (c k rate : float) mk ek mr er :
  Prim2SF k = S754_finite false mk ek ->
  Prim2SF rate = S754_finite false mr er ->
  (c =? k)%float = true ->
  ((c - k) * rate)%float = 0%float.
Proof.
  intros Hk Hr Heq. apply Prim2SF_inj.
  rewrite FloatAxioms.mul_spec, FloatAxioms.sub_spec, Hk, Hr.
  rewrite FloatAxioms.eqb_spec, Hk in Heq.
  pose proof (Prim2SF_valid c) as Hv. pose proof (Prim2SF_valid k) as Hvk.
  rewrite Hk in Hvk. cbn [valid_binary] in Hvk.
  destruct (Prim2SF c) as [s|s| |s mc ec]; try discriminate.
  { destruct s; discriminate. }
  unfold SFeqb in Heq. cbn [SFcompare] in Heq.
  destruct s; [discriminate|].
  destruct (Z.compare_spec ec ek) as [E|E|E]; try discriminate.
  destruct (Pos.compare_cont Eq mc mk) eqn:Ec; try discriminate.
  apply Pos.compare_eq in Ec. subst. rewrite SFsub_diag. reflexivity.
Qed.

(** X14. The energy cost and the taxes have the sign of the consumption
    less the allowance. For a recognized connection type and at least one
    unit, with [k] the float of [n_ucs * 100]: a consumption below [k]
    gives a negative energy cost and negative taxes, a consumption equal
    to [k] gives zero for both, and a consumption above [k] gives both
    positive. No rounding makes a difference that is not zero vanish. *)
Theorem bill_before_sign (pic c : float) (dc : string) (n a : Z) (k : float) :
  base_allowance dc = Some a ->
  1 <= n ->
  float_of_int (n * 100) = Ok k ->
  exists before energy taxes,
    calculate_bill_before enel pic dc c n = Ok before
    /\ before !! "valor em energia" = Some energy
    /\ before !! "impostos" = Some taxes
    /\ ((c <? k)%float = true ->
        (energy <? 0)%float = true /\ (taxes <? 0)%float = true)
    /\ ((c =? k)%float = true -> energy = 0%float /\ taxes = 0%float)
    /\ ((k <? c)%float = true ->
        (0 <? energy)%float = true /\ (0 <? taxes)%float = true).
Proof.
  intros Ha Hn Hk.
  destruct (float_of_int_inv (n * 100) k ltac:(lia) Hk) as (mk & ek & Hpk & Hbk & Hmk).
  assert (Hl : 6 <= Z.log2 (n * 100)).
  { change 6 with (Z.log2 100). apply Z.log2_le_mono. lia. }
  destruct (bounded_facts mk ek Hbk) as (Hl1 & He1 & He2 & Hc).
  assert (Hek : -46 <= ek) by (unfold mag in Hmk; lia).
  assert (Hlk : Z.log2 (Z.pos mk) = 52).
  { apply Hc. unfold SpecFloat.emin, prec, emax. lia. }
  assert (Hka : exists ka, float_of_int (a * n) = Ok ka).
  { destruct (base_allowance_cases dc a Ha) as [->|[->| ->]].
    - exists k. now rewrite Z.mul_comm.
    - apply (float_of_int_half (n * 100) _ k); [lia|exact Hk].
    - apply (float_of_int_half (n * 100) _ k); [lia|exact Hk]. }
  destruct Hka as [ka Hka].
  pose proof (calculate_bill_before_ok enel pic dc c n _ _ _ _ k a ka
                get_tarifas_enel Hk Ha Hka) as Hb.
  eexists _, _, _. split; [exact Hb|].
  split; [reflexivity|]. split; [reflexivity|].
  assert (Hr : Prim2SF 0.832 = S754_finite false 7493989779944505 (-53)) by reflexivity.
  assert (Ht : Prim2SF 0.11830000000000007 = S754_finite false 8524413374686880 (-56))
    by reflexivity.
  split; [|split].
  - intros Hlt. split.
    + apply (below_allowance_negative c k _ mk ek _ _ Hpk Hbk Hlk Hek Hr);
        [vm_compute; discriminate|exact Hlt].
    + apply (below_allowance_negative c k _ mk ek _ _ Hpk Hbk Hlk Hek Ht);
        [vm_compute; discriminate|exact Hlt].
  - intros Heq. split.
    + exact (at_allowance_zero c k _ mk ek _ _ Hpk Hr Heq).
    + exact (at_allowance_zero c k _ mk ek _ _ Hpk Ht Heq).
  - intros Hlt. split.
    + apply (above_allowance_positive c k _ mk ek _ _ Hpk Hbk Hlk Hek Hr);
        [vm_compute; discriminate|exact Hlt].
    + apply (above_allowance_positive c k _ mk ek _ _ Hpk Hbk Hlk Hek Ht);
        [vm_compute; discriminate|exact Hlt].
Qed.

Lemma bill_before_sign_witness :
  exists before energy taxes,
    calculate_bill_before enel 30 "Trifásico" 100.00000000000001 1 = Ok before
    /\ before !! "valor em energia" = Some energy
    /\ before !! "impostos" = Some taxes
    /\ (0 <? energy)%float = true
    /\ (0 <? taxes)%float = true.
Proof.
  destruct (bill_before_sign 30 100.00000000000001 "Trifásico" 1 100 100
              eq_refl ltac:(lia) eq_refl)
    as (before & energy & taxes & Hb & He & Ht & _ & _ & Hpos).
  exists before, energy, taxes. destruct (Hpos eq_refl) as [H1 H2]. auto.
Defined.

End Billing.

(** ** The money formatter *)

Module Money.
Import TextFormatter MoneyFormat Reading.

Ltac digit_bounds :=
  unfold is_digit in *;
  change (char "0") with 48%N in *; change (char "9") with 57%N in *.

(** Digit strings consist of digits. *)
Lemma uint_str_digits d : Forall is_digit (uint_str d).
Proof.
  induction d; cbn [uint_str]; constructor; auto; digit_bounds; lia.
Qed.

Lemma nat_str_digits n : Forall is_digit (nat_str n).
Proof. apply uint_str_digits. Qed.

(** The two decimals are digits. *)
Lemma two_digits_digits c :
  0 <= c < 100 -> Forall is_digit (two_digits c).
Proof.
  intros Hc. unfold two_digits.
  assert (0 <= c / 10 < 10) by (split; [apply Z.div_pos; lia|apply Z.div_lt_upper_bound; lia]).
  assert (0 <= c mod 10 < 10) by (apply Z.mod_pos_bound; lia).
  repeat constructor; digit_bounds; lia.
Qed.

(** [group3_rev] by course-of-values induction. *)
Lemma group3_rev_ind (P : list N -> Prop) :
  (forall ds, (length ds <= 3)%nat -> P ds) ->
  (forall a b c d rest, P (d :: rest) -> P (a :: b :: c :: d :: rest)) ->
  forall ds, P ds.
Proof.
  intros Hs Hl ds. remember (length ds) as n eqn:Hn.
  revert ds Hn. induction n as [n IH] using lt_wf_ind. intros ds Hn.
  destruct ds as [|a [|b [|c [|d rest]]]]; try (apply Hs; cbn; lia).
  apply Hl. apply (IH (length (d :: rest))); [subst; cbn; lia|reflexivity].
Qed.

(** Grouping commutes with a change of characters. *)
Lemma group3_rev_fmap (f : N -> N) sep ds :
  f <$> group3_rev sep ds = group3_rev (f sep) (f <$> ds).
Proof.
  pattern ds. apply group3_rev_ind; clear ds.
  - intros ds Hs. destruct ds as [|a [|b [|c [|d rest]]]]; try reflexivity. cbn in Hs. lia.
  - intros a b c d rest IH. cbn [group3_rev fmap list_fmap] in *. now rewrite IH.
Qed.

Lemma group3_fmap (f : N -> N) sep ds :
  f <$> group3 sep ds = group3 (f sep) (f <$> ds).
Proof.
  unfold group3. change (@fmap list _ _ _ f) with (map f).
  rewrite map_rev. change (map f) with (@fmap list _ _ _ f).
  rewrite group3_rev_fmap. change (@fmap list _ _ _ f) with (map f).
  now rewrite map_rev.
Qed.

(** Grouping adds nothing but separators. *)
Lemma group3_rev_Forall (P : N -> Prop) sep ds :
  P sep -> Forall P ds -> Forall P (group3_rev sep ds).
Proof.
  intros Hsep. pattern ds. apply group3_rev_ind; clear ds.
  - intros ds Hs H. destruct ds as [|a [|b [|c [|d rest]]]]; try exact H. cbn in Hs. lia.
  - intros a b c d rest IH H. cbn [group3_rev].
    inversion H as [|? ? Ha H1]; subst. inversion H1 as [|? ? Hb H2]; subst.
    inversion H2 as [|? ? Hc H3]; subst. repeat constructor; auto.
Qed.

Lemma group3_Forall (P : N -> Prop) sep ds :
  P sep -> Forall P ds -> Forall P (group3 sep ds).
Proof.
  intros Hsep H. unfold group3. apply Forall_rev, group3_rev_Forall; [exact Hsep|].
  now apply Forall_rev.
Qed.

(** A map that fixes every element of a list fixes the list. *)
Lemma fmap_fixed (f : N -> N) (P : N -> Prop) ds :
  (forall c, P c -> f c = c) -> Forall P ds -> f <$> ds = ds.
Proof.
  intros Hf H. induction H as [|c ds Hc _ IH]; [reflexivity|].
  cbn. now rewrite Hf, IH.
Qed.

(** Replacing a character that is not a digit leaves digits alone. *)
Lemma replace_digits old new ds :
  ~ is_digit old -> Forall is_digit ds -> replace old new ds = ds.
Proof.
  intros Ho. apply fmap_fixed. intros c Hc.
  destruct (N.eqb_spec c old) as [->|]; [contradiction|reflexivity].
Qed.

(** One replacement in a formatted number changes its separators only. *)
Lemma replace_formatted old new (s : bool) (int_digits fraction : str) (sep point : N) :
  ~ is_digit old -> old <> 45%N ->
  Forall is_digit int_digits -> Forall is_digit fraction ->
  replace old new (sign_str s ++ group3 sep int_digits ++ [point] ++ fraction)
  = sign_str s
      ++ group3 (if N.eqb sep old then new else sep) int_digits
      ++ [if N.eqb point old then new else point] ++ fraction.
Proof.
  intros Ho Hm Hi Hf. unfold replace at 1.
  rewrite !fmap_app, group3_fmap.
  fold (replace old new int_digits) (replace old new fraction).
  rewrite !replace_digits by auto.
  f_equal. destruct s; [|reflexivity].
  change (sign_str true) with [45%N]. cbn [fmap list_fmap].
  destruct (N.eqb_spec 45 old); [congruence|reflexivity].
Qed.

(** The three replacements swap the two separators of a formatted
    number. *)
Lemma swap_separators (s : bool) (int_digits fraction : str) :
  Forall is_digit int_digits -> Forall is_digit fraction ->
  replace 88 46 (replace 46 44 (replace 44 88
    (sign_str s ++ group3 44 int_digits ++ lit "." ++ fraction)))
  = sign_str s ++ group3 46 int_digits ++ lit "," ++ fraction.
Proof.
  intros Hi Hf. change (lit ".") with [46%N]. change (lit ",") with [44%N].
  rewrite !replace_formatted by (auto; digit_bounds; lia).
  reflexivity.
Qed.


(** A number has at least one digit. *)
Lemma nat_str_nonempty n : nat_str n <> [].
Proof.
  unfold nat_str. destruct n as [|p]; [discriminate|].
  cbn [N.to_uint]. pose proof (Unsigned.to_uint_nonnil p) as H.
  destruct (Pos.to_uint p); [contradiction|discriminate..].
Qed.

(** Reading a digit string back, with an accumulator ... *)
Lemma number_uint_acc d acc :
  foldl (fun n c => n * 10 + (c - 48))%N (N.pos acc) (uint_str d)
  = N.pos (Pos.of_uint_acc d acc).
Proof.
  revert acc. induction d; intros acc; cbn [uint_str foldl Pos.of_uint_acc];
    [reflexivity|..].
  all: match goal with
       | |- context [(N.pos _ * 10 + (?c - 48))%N] =>
           let k := eval vm_compute in (c - 48)%N in
           change (c - 48)%N with k
       end.
  all: try (rewrite N.add_0_r).
  all: match goal with
       | |- foldl _ ?a _ = N.pos (Pos.of_uint_acc _ ?b) =>
           replace a with (N.pos b) by lia
       end; apply IHd.
Qed.

(** ... and from the start. *)
Lemma number_uint d : number (uint_str d) = N.of_uint d.
Proof.
  unfold number, N.of_uint. change (char "0") with 48%N.
  induction d; cbn [uint_str foldl Pos.of_uint]; [reflexivity|exact IHd|..].
  all: apply number_uint_acc.
Qed.

(** The digits of [nat_str n] denote [n]. *)
Lemma number_nat_str n : number (nat_str n) = n.
Proof. unfold nat_str. rewrite number_uint. apply DecimalN.Unsigned.of_to. Qed.

(** The two decimals denote the hundredths. *)
Lemma number_two_digits c :
  0 <= c < 100 -> number (two_digits c) = Z.to_N c.
Proof.
  intros Hc. unfold number, two_digits. change (char "0") with 48%N. cbn [foldl].
  assert (0 <= c / 10 < 10) by (split; [apply Z.div_pos; lia|apply Z.div_lt_upper_bound; lia]).
  pose proof (Z.mod_pos_bound c 10 ltac:(lia)).
  pose proof (Z.div_mod c 10 ltac:(lia)). lia.
Qed.

(** [div_half_even a b] is an integer nearest to [a / b]. *)
Lemma div_half_even_nearest a b :
  0 < b -> 2 * Z.abs (b * div_half_even a b - a) <= b.
Proof.
  intros Hb. unfold div_half_even.
  pose proof (Z.div_mod a b ltac:(lia)) as Hd.
  pose proof (Z.mod_pos_bound a b Hb) as Hm.
  destruct (Z.compare_spec (2 * (a mod b)) b) as [E|E|E];
    [destruct (Z.even (a / b))| |]; nia.
Qed.

(** A finite value below zero has its sign bit set. *)
Lemma negative_signbit (value : float) :
  (value <? 0)%float = true ->
  finite (Prim2SF value) = true -> signbit (Prim2SF value) = true.
Proof.
  rewrite FloatAxioms.ltb_spec. change (Prim2SF 0) with (S754_zero false).
  destruct (Prim2SF value) as [s|s| |s m e]; try discriminate.
  now destruct s.
Qed.

(** C7. The money format of a finite value is its sign, the integer
    part of its amount in hundredths (the nearest, ties to even) in
    groups of three digits separated by ".", a "," and two digits: there
    is no other character in it, no currency symbol in particular, and a
    negative value begins with "-". *)
Theorem format_money_br_finite (value : float) :
  let x := Prim2SF value in
  finite x = true ->
  format_money_br value = render (signbit x) (cents x)
  /\ (exists int_digits d1 d2,
        format_money_br value
        = sign_str (signbit x) ++ group3 (char ".") int_digits ++ lit "," ++ [d1; d2]
        /\ int_digits <> []
        /\ Forall is_digit int_digits
        /\ is_digit d1 /\ is_digit d2
        /\ number int_digits = Z.to_N (cents x / 100)
        /\ number [d1; d2] = Z.to_N (cents x mod 100))
  /\ Forall (fun c => is_digit c \/ c = char "." \/ c = char "," \/ c = char "-")
        (format_money_br value)
  /\ (forall s m e, x = S754_finite s m e ->
        if 0 <=? e then cents x = Z.pos m * 2 ^ e * 100
        else 2 * Z.abs (2 ^ (- e) * cents x - Z.pos m * 100) <= 2 ^ (- e))
  /\ ((value <? 0)%float = true ->
      exists rest, format_money_br value = char "-" :: rest)
  /\ format_money_br 1234.5 = lit "1.234,50"
  /\ format_money_br (-7.1) = lit "-7,10".
Proof.
  intros x Hfin.
  assert (Hdig : forall c, Forall is_digit (two_digits (c mod 100))).
  { intros c. apply two_digits_digits. apply Z.mod_pos_bound. lia. }
  assert (Heq : format_money_br value = render (signbit x) (cents x)).
  { unfold format_money_br, format_comma_2f, render. fold x.
    change (char "X") with 88%N. change (char ".") with 46%N.
    change (char ",") with 44%N.
    destruct x as [s|s| |s m e]; try discriminate.
    - now destruct s.
    - cbv zeta. rewrite swap_separators by auto using nat_str_digits. reflexivity. }
  split; [exact Heq|]. split; [|split; [|split; [|split]]].
  - rewrite Heq. unfold render, two_digits.
    eexists _, _, _. split; [reflexivity|]. split; [apply nat_str_nonempty|].
    split; [apply nat_str_digits|].
    pose proof (Hdig (cents x)) as H. unfold two_digits in H.
    inversion H as [|? ? H1 H']; subst. inversion H' as [|? ? H2 _]; subst.
    split; [exact H1|]. split; [exact H2|]. split; [apply number_nat_str|].
    apply (number_two_digits (cents x mod 100)). apply Z.mod_pos_bound. lia.
  - rewrite Heq. unfold render. repeat apply Forall_app_2.
    + destruct (signbit x); [|apply Forall_nil_2].
      apply Forall_cons_2; [auto|apply Forall_nil_2].
    + apply group3_Forall; [auto|].
      eapply Forall_impl; [apply nat_str_digits|]. cbn. auto.
    + apply Forall_cons_2; [auto|apply Forall_nil_2].
    + eapply Forall_impl; [apply Hdig|]. cbn. auto.
  - intros s m e ->. cbn [cents]. unfold scaled_half_even.
    destruct (0 <=? e) eqn:E; [reflexivity|].
    apply Z.leb_gt in E. apply div_half_even_nearest.
    apply Z.pow_pos_nonneg; lia.
  - intros Hneg. rewrite Heq. unfold x.
    rewrite (negative_signbit value Hneg Hfin). eexists. reflexivity.
  - split; vm_compute; reflexivity.
Qed.

Lemma format_money_br_finite_witness :
  TextFormatter.format_money_br 1234567.891 = lit "1.234.567,89"
  /\ TextFormatter.format_money_br (-0.005) = lit "-0,01".
Proof.
  split.
  - destruct (format_money_br_finite 1234567.891 eq_refl) as [H _].
    rewrite H. vm_compute. reflexivity.
  - destruct (format_money_br_finite (-0.005) eq_refl) as [H _].
    rewrite H. vm_compute. reflexivity.
Defined.

(** The money format of a finite value, as the specification words it. *)
Lemma format_money_br_render (value : float) :
  finite (Prim2SF value) = true ->
  format_money_br value = render (signbit (Prim2SF value)) (cents (Prim2SF value)).
Proof.
  intros Hfin. unfold format_money_br, format_comma_2f, render.
  change (char "X") with 88%N. change (char ".") with 46%N. change (char ",") with 44%N.
  destruct (Prim2SF value) as [s|s| |s m e]; try discriminate.
  - now destruct s.
  - cbv zeta. rewrite swap_separators; [reflexivity|apply nat_str_digits|].
    apply two_digits_digits. apply Z.mod_pos_bound. lia.
Qed.

(** The amount in hundredths is not negative. *)
Lemma cents_nonneg x : 0 <= cents x.
Proof.
  destruct x as [s|s| |s m e]; cbn [cents]; try lia.
  unfold scaled_half_even. destruct (0 <=? e) eqn:E.
  - apply Z.leb_le in E. apply Z.mul_nonneg_nonneg; [|lia].
    apply Z.mul_nonneg_nonneg; [lia|]. apply Z.pow_nonneg. lia.
  - unfold div_half_even.
    assert (0 <= Z.pos m * 10 ^ 2 / 2 ^ (- e)).
    { apply Z.div_pos; [lia|]. apply Z.pow_pos_nonneg; lia. }
    destruct (_ ?= _); [destruct (Z.even _)| |]; lia.
Qed.

(** X3. A value that is not finite is not rejected: a NaN comes out as
    "nan" and an infinity as "inf" or "-inf", without a digit or a
    separator. *)
Theorem format_money_br_not_finite (value : float) :
  finite (Prim2SF value) = false ->
  format_money_br value
  = match Prim2SF value with
    | S754_nan => lit "nan"
    | x => sign_str (signbit x) ++ lit "inf"
    end.
Proof.
  unfold format_money_br, format_comma_2f.
  destruct (Prim2SF value) as [s|s| |s m e]; cbn [finite]; try discriminate; intros _.
  - now destruct s.
  - reflexivity.
Qed.

Lemma format_money_br_not_finite_witness :
  format_money_br neg_infinity = lit "-inf" /\ format_money_br nan = lit "nan".
Proof.
  split.
  - apply (format_money_br_not_finite neg_infinity). reflexivity.
  - apply (format_money_br_not_finite nan). reflexivity.
Defined.

(** Digits are kept ... *)
Lemma digits_of_digits ds : Forall is_digit ds -> digits ds = ds.
Proof.
  unfold digits. induction 1 as [|ch ds Hc _ IH]; [reflexivity|]. cbn [List.filter].
  unfold is_digit in Hc. destruct Hc as [H1 H2].
  apply N.leb_le in H1, H2. rewrite H1, H2. cbn [andb]. now rewrite IH.
Qed.

Lemma digits_app s1 s2 : digits (s1 ++ s2) = digits s1 ++ digits s2.
Proof. apply List.filter_app. Qed.

(** ... and separators are dropped. *)
Lemma digits_group3_rev ds :
  Forall is_digit ds -> digits (group3_rev (char ".") ds) = ds.
Proof.
  pattern ds. apply group3_rev_ind; clear ds.
  - intros ds Hs H. destruct ds as [|a [|b [|c [|d rest]]]];
      try (now apply digits_of_digits). cbn in Hs. lia.
  - intros a b c d rest IH H.
    inversion H as [|? ? Ha H1]; subst. inversion H1 as [|? ? Hb H2]; subst.
    inversion H2 as [|? ? Hc H3]; subst.
    change (group3_rev (char ".") (a :: b :: c :: d :: rest))
      with ([a; b; c] ++ [char "."] ++ group3_rev (char ".") (d :: rest)).
    rewrite !digits_app, IH by exact H3.
    rewrite (digits_of_digits [a; b; c]) by auto using Forall_cons_2, Forall_nil_2.
    reflexivity.
Qed.

Lemma digits_group3 ds :
  Forall is_digit ds -> digits (group3 (char ".") ds) = ds.
Proof.
  intros H. unfold group3, digits. rewrite List.filter_rev.
  fold (digits (group3_rev (char ".") (rev ds))). rewrite digits_group3_rev.
  - apply rev_involutive.
  - now apply Forall_rev.
Qed.

(** The digits of a rendered amount are those of its integer part
    followed by the two decimals. *)
Lemma digits_render s c :
  digits (render s c) = nat_str (Z.to_N (c / 100)) ++ two_digits (c mod 100).
Proof.
  unfold render. rewrite !digits_app.
  rewrite digits_group3 by apply nat_str_digits.
  rewrite (digits_of_digits (two_digits _))
    by (apply two_digits_digits, Z.mod_pos_bound; lia).
  now destruct s.
Qed.

(** A rendered amount contains a "-" when it is negative, and only then. *)
Lemma negative_render s c : negative (render s c) = s.
Proof.
  unfold negative, render. rewrite !existsb_app.
  assert (Hd : forall ds, Forall (fun ch => is_digit ch \/ ch = char ".") ds ->
                          existsb (N.eqb (char "-")) ds = false).
  { induction 1 as [|ch ds Hc _ IH]; [reflexivity|]. cbn [existsb]. rewrite IH.
    destruct (N.eqb_spec (char "-") ch) as [<-|]; [|reflexivity].
    destruct Hc as [Hc|Hc]; [digit_bounds; change (char "-") with 45%N in Hc; lia|discriminate]. }
  rewrite (Hd (group3 _ _)), (Hd (two_digits _)).
  - now destruct s.
  - eapply Forall_impl; [apply two_digits_digits, Z.mod_pos_bound; lia|]. cbn. auto.
  - apply group3_Forall; [auto|].
    eapply Forall_impl; [apply nat_str_digits|]. cbn. auto.
Qed.

(** Reading the digits of a rendered amount gives the amount back. *)
Lemma number_render s c : 0 <= c -> number (digits (render s c)) = Z.to_N c.
Proof.
  intros Hc. rewrite digits_render.
  pose proof (number_nat_str (Z.to_N (c / 100))) as Hi.
  pose proof (number_two_digits (c mod 100) ltac:(apply Z.mod_pos_bound; lia)) as Hf.
  unfold number in *. rewrite foldl_app, Hi. clear Hi.
  unfold two_digits in *. cbn [foldl] in *.
  pose proof (Z.div_mod c 100 ltac:(lia)). pose proof (Z.mod_pos_bound c 100 ltac:(lia)).
  assert (0 <= c / 100) by (apply Z.div_pos; lia).
  lia.
Qed.

(** X4. The money format can be read back, and so is unambiguous. The
    digits of the format of a finite value, read as one number, are its
    amount in hundredths (the nearest, ties to even), and a "-" occurs in
    it exactly when the sign bit is set. Two finite values are formatted
    alike exactly when they have the same sign and the same amount in
    hundredths. *)
Theorem format_money_br_unambiguous (v w : float) :
  finite (Prim2SF v) = true ->
  finite (Prim2SF w) = true ->
  number (digits (format_money_br v)) = Z.to_N (cents (Prim2SF v))
  /\ negative (format_money_br v) = signbit (Prim2SF v)
  /\ (format_money_br v = format_money_br w
      <-> signbit (Prim2SF v) = signbit (Prim2SF w)
          /\ cents (Prim2SF v) = cents (Prim2SF w)).
Proof.
  intros Hv Hw. rewrite !format_money_br_render by assumption.
  pose proof (cents_nonneg (Prim2SF v)) as Hcv.
  pose proof (cents_nonneg (Prim2SF w)) as Hcw.
  split; [now apply number_render|]. split; [apply negative_render|]. split.
  - intros H. split.
    + rewrite <- (negative_render (signbit (Prim2SF v)) (cents (Prim2SF v))),
        <- (negative_render (signbit (Prim2SF w)) (cents (Prim2SF w))). now rewrite H.
    + apply (f_equal (fun s => number (digits s))) in H.
      rewrite !number_render in H by assumption. lia.
  - now intros [-> ->].
Qed.

Lemma format_money_br_unambiguous_witness :
  format_money_br 980.29999999999995 = format_money_br 980.30000000000007
  /\ format_money_br 0.004 <> format_money_br (-0.004)
  /\ number (digits (format_money_br 1234.5)) = 123450%N.
Proof.
  split; [|split].
  - apply format_money_br_unambiguous; [reflexivity|reflexivity|].
    split; vm_compute; reflexivity.
  - intros H. apply format_money_br_unambiguous in H as [H _];
      [discriminate|reflexivity|reflexivity].
  - destruct (format_money_br_unambiguous 1234.5 1234.5 eq_refl eq_refl) as [H _].
    rewrite H. vm_compute. reflexivity.
Defined.

(** A formatted amount is not empty, and it begins with a digit, a
    separator, the sign or a letter of "inf" and "nan". *)
Lemma format_money_br_chars value :
  exists ch s, format_money_br value = ch :: s /\ money_char ch.
Proof.
  assert (H : format_money_br value <> [] /\ Forall money_char (format_money_br value)).
  { unfold format_money_br, format_comma_2f.
    change (char "X") with 88%N. change (char ".") with 46%N. change (char ",") with 44%N.
    destruct (Prim2SF value) as [s|s| |s m e].
    - destruct s;
        match goal with |- ?t <> [] /\ _ => set (str := t); vm_compute in str; subst str end;
        (split; [discriminate|]);
        repeat apply Forall_cons_2; try apply Forall_nil_2;
        unfold money_char; first [left; digit_bounds; lia | right; set_solver].
    - destruct s;
        match goal with |- ?t <> [] /\ _ => set (str := t); vm_compute in str; subst str end;
        (split; [discriminate|]);
        repeat apply Forall_cons_2; try apply Forall_nil_2;
        unfold money_char; right; set_solver.
    - match goal with |- ?t <> [] /\ _ => set (str := t); vm_compute in str; subst str end.
      split; [discriminate|].
      repeat apply Forall_cons_2; try apply Forall_nil_2;
        unfold money_char; right; set_solver.
    - cbv zeta. rewrite swap_separators;
        [|apply nat_str_digits|apply two_digits_digits, Z.mod_pos_bound; lia].
      split.
      + destruct s; [discriminate|]. cbn [sign_str app]. intros H.
        apply app_eq_nil in H as [H _].
        apply (f_equal length) in H. unfold group3 in H. rewrite length_rev in H.
        pose proof (nat_str_nonempty (Z.to_N (scaled_half_even m e 2 / 100))) as Hn.
        destruct (nat_str _) as [|d ds] eqn:E; [contradiction|].
        clear - H. destruct (rev (d :: ds)) as [|a [|b [|c [|x l]]]] eqn:Er;
          try discriminate.
        apply (f_equal (@length N)) in Er. rewrite length_rev in Er. discriminate.
      + repeat apply Forall_app_2.
        * destruct s; [|apply Forall_nil_2].
          apply Forall_cons_2; [right; set_solver|apply Forall_nil_2].
        * apply group3_Forall; [right; set_solver|].
          eapply Forall_impl; [apply nat_str_digits|]. now left.
        * apply Forall_cons_2; [right; set_solver|apply Forall_nil_2].
        * eapply Forall_impl; [apply two_digits_digits, Z.mod_pos_bound; lia|]. now left. }
  destruct H as [Hne HF]. destruct (format_money_br value) as [|ch s]; [contradiction|].
  exists ch, s. split; [reflexivity|]. now inversion HF.
Qed.

End Money.

(** ** The update of a text shape *)

Module TextShapes.
Import TextFormatter.

(** What the update of a paragraph leaves and what it writes: the text
    goes into the first run, the other runs stay; a paragraph without
    runs gets one fresh run and the font as its own. *)
Lemma update_paragraph_spec p text font size center :
  let p' := update_paragraph p text font size center in
  paragraph_text p' = text ++ concat (run_text <$> tail (runs p))
  /\ tail (runs p') = tail (runs p)
  /\ paragraph_alignment p' = (if center then Some CENTER else paragraph_alignment p)
  /\ match runs p with
     | r :: _ =>
         head (runs p')
         = Some {| run_text := text;
                   run_font := {| font_name := Some font; font_size := Some (Pt size) |};
                   run_alignment := if center then Some CENTER else run_alignment r |}
         /\ paragraph_font p' = paragraph_font p
     | [] =>
         runs p' = match text with
                   | [] => []
                   | _ => [ {| run_text := text; run_font := no_font;
                               run_alignment := None |} ]
                   end
         /\ paragraph_font p' = {| font_name := Some font; font_size := Some (Pt size) |}
     end.
Proof.
  unfold update_paragraph, paragraph_text.
  destruct p as [rs pf pa]. destruct rs as [|r rs], center, text as [|ch text];
    cbn; rewrite ?app_nil_r; repeat split; reflexivity.
Qed.






End TextShapes.

(** ** The placeholder resolver *)

Module Placeholders.
Import PowerPointUpdater Catalog Resolver.

(** [pass] after a statement changes nothing. *)
Lemma seq_pass_r (a : stmt) shape : seq a pass shape = a shape.
Proof. unfold seq, pass. destruct (a shape) as [s [[]|e]]; reflexivity. Qed.

(** Running one rule, and running two. *)
Lemma run_single h client discount before after r shape :
  run h client discount before after [r] shape
  = apply h client discount before after r shape.
Proof. apply seq_pass_r. Qed.

Lemma run_pair h client discount before after r1 r2 shape :
  run h client discount before after [r1; r2] shape
  = seq (apply h client discount before after r1)
        (apply h client discount before after r2) shape.
Proof.
  cbn [run]. unfold seq at 1 3.
  destruct (apply h client discount before after r1 shape) as [s [[]|e]];
    [apply seq_pass_r|reflexivity].
Qed.

(** Both sides of the refinement once the tests are decided. *)
Ltac run_rules :=
  cbn [app option_list option_rect];
  rewrite ?run_pair, ?run_single, ?seq_pass_r;
  reflexivity.

Ltac try_rule p :=
  match goal with
  | |- context [startswith ?t (lit p)] =>
      destruct (startswith t (lit p)) eqn:?; [run_rules|]
  end.

(** The conditionals of [_update_text_shape] apply the rules that the
    catalog fires, in order. *)
Lemma _update_text_shape_run h shape text client discount before after log :
  _update_text_shape h shape text client discount before after log
  = match run h client discount before after (fired text) shape with
    | (shape', Ok _) => (shape', log)
    | (shape', Raise e) =>
        (shape', log ++ [ {| snippet := take 20 text; error := e |} ])
    end.
Proof.
  unfold _update_text_shape.
  cbv beta iota delta [fired chain find pattern].
  destruct (startswith text (lit "CLIENTE: PPPPPP")) eqn:E0.
  all: try_rule "DATA: DDDDDDD".
  all: try_rule "XX%".
  all: try_rule "YY%".
  all: try_rule "R$ AAAA".
  all: try_rule "R$ AAAB".
  all: try_rule "R$ BBBB".
  all: try_rule " R$ aBBa".
  all: try_rule "R$ CCCC".
  all: try_rule "R$ DDDD".
  all: try_rule "R$ DDDB".
  all: try_rule "R$ EEEE".
  all: try_rule "R$ EEEB".
  all: try_rule "R$ FFFF".
  all: try_rule "R$ GGGG".
  all: try_rule "R$ HHHH".
  all: try_rule "R$ IIII".
  all: try_rule "R$ CDCD".
  all: try_rule "R$ CICI".
  all: run_rules.
Qed.


(** *** Matching *)

Lemma fired_matches text r :
  r ∈ fired text -> startswith text (pattern r) = true.
Proof.
  unfold fired. intros H. apply elem_of_app in H as [H|H].
  - destruct (startswith text (pattern CLIENTE)) eqn:E.
    + apply list_elem_of_singleton in H. now subst.
    + now apply elem_of_nil in H.
  - destruct (find _ chain) as [r'|] eqn:E; cbn in H.
    + apply list_elem_of_singleton in H. subst.
      now apply find_some in E as [_ E].
    + now apply elem_of_nil in H.
Qed.

(** A text that no pattern is a prefix of fires nothing. *)
Lemma fired_none text :
  (forall r, startswith text (pattern r) = false) -> fired text = [].
Proof.
  intros H. unfold fired. rewrite (H CLIENTE).
  destruct (find _ chain) as [r|] eqn:E; [|reflexivity].
  apply find_some in E as [_ E]. now rewrite H in E.
Qed.

(** A prefix fixes the first character. *)
Lemma startswith_cons_inv c s p ps :
  startswith (c :: s) (p :: ps) = true -> p = c.
Proof.
  change (startswith (c :: s) (p :: ps)) with (N.eqb p c && startswith s ps).
  intros H. apply andb_prop in H as [H _]. now apply N.eqb_eq in H.
Qed.

(** No text fires two rules: the free-standing rule begins with [C], no
    rule of the chain does. *)
Lemma fired_at_most_one text : (length (fired text) <= 1)%nat.
Proof.
  unfold fired.
  destruct (startswith text (pattern CLIENTE)) eqn:E.
  - destruct text as [|c text]; [discriminate|].
    apply startswith_cons_inv in E. subst c.
    vm_compute. constructor.
  - cbn [app]. destruct (find _ chain); cbn; lia.
Qed.

(** *** Trimming *)

Lemma lstrip_head s :
  match lstrip s with
  | c :: _ => isspace c = false
  | [] => True
  end.
Proof.
  induction s as [|c s IH]; cbn [lstrip]; [exact I|].
  destruct (isspace c) eqn:E; [exact IH|exact E].
Qed.

(** ... and is a suffix of the argument. *)
Lemma lstrip_suffix s : exists w, s = w ++ lstrip s.
Proof.
  induction s as [|c s [w IH]]; cbn [lstrip].
  - now exists [].
  - destruct (isspace c).
    + exists (c :: w). cbn. now f_equal.
    + now exists [].
Qed.

(** A trimmed text does not begin with white space. *)
Lemma strip_head s :
  match strip s with
  | c :: _ => isspace c = false
  | [] => True
  end.
Proof.
  unfold strip, rstrip.
  destruct (lstrip_suffix (rev (lstrip s))) as [w Hw].
  apply (f_equal (@rev N)) in Hw. rewrite rev_involutive, rev_app_distr in Hw.
  pose proof (lstrip_head s) as Hh. rewrite Hw in Hh.
  destruct (rev (lstrip (rev (lstrip s)))) as [|c r]; [exact I|exact Hh].
Qed.

(** No pattern that begins with a space is a prefix of a trimmed text. *)
Lemma strip_no_leading_space s p :
  startswith (strip s) (32%N :: p) = false.
Proof.
  pose proof (strip_head s) as H.
  destruct (strip s) as [|c r]; [reflexivity|].
  change (startswith (c :: r) (32%N :: p)) with (N.eqb 32 c && startswith r p).
  destruct (N.eqb_spec 32 c) as [<-|]; [discriminate|reflexivity].
Qed.


(** *** The loops *)

Lemma _update_text_shape_log h shape text client discount before after log :
  _update_text_shape h shape text client discount before after log
  = let '(shape', l) :=
      _update_text_shape h shape text client discount before after [] in
    (shape', log ++ l).
Proof.
  unfold _update_text_shape.
  match goal with |- context [seq ?a ?b shape] => destruct (seq a b shape) as [s [[]|e]] end.
  - now rewrite app_nil_r.
  - reflexivity.
Qed.

(** The loop over the shapes of a slide never raises: it maps
    [resolve_shape] over them and appends what they log. *)
Lemma _update_slide_resolve h shapes client discount before after log :
  _update_slide h shapes client discount before after log
  = Ok (let '(shapes', l) := resolve_slide h client discount before after shapes in
        (shapes', log ++ l)).
Proof.
  revert log. induction shapes as [|shape shapes IH]; intros log.
  - cbn. now rewrite app_nil_r.
  - cbn [_update_slide]. unfold resolve_slide in *. cbn [fmap list_fmap concat fst snd].
    unfold resolve_shape at 1 3.
    destruct (decide (shape_type shape = TEXT_BOX)) as [Ht|Ht].
    + unfold has_text_frame, shape_text.
      destruct (text_frame shape) as [tf|].
      * cbn [mbind result_bind mret result_ret].
        rewrite _update_text_shape_log.
        destruct (_update_text_shape h shape _ client discount before after [])
          as [shape' l].
        rewrite IH. cbn [mbind result_bind mret result_ret fst snd].
        now rewrite app_assoc.
      * cbn [mbind result_bind mret result_ret]. rewrite IH.
        cbn [mbind result_bind mret result_ret fst snd]. reflexivity.
    + cbn [mbind result_bind mret result_ret]. rewrite IH.
      cbn [mbind result_bind mret result_ret fst snd]. reflexivity.
Qed.

(** The same for the loop over the slides. *)
Lemma update_slides_resolve h slides client discount before after log :
  update_slides h slides client discount before after log
  = Ok (let '(slides', l) := resolve_all h client discount before after slides in
        (slides', log ++ l)).
Proof.
  revert log. induction slides as [|slide slides IH]; intros log.
  - cbn. now rewrite app_nil_r.
  - cbn [update_slides]. rewrite _update_slide_resolve.
    unfold resolve_all in *. cbn [fmap list_fmap concat fst snd].
    destruct (resolve_slide h client discount before after slide) as [slide' l].
    cbn [mbind result_bind mret result_ret]. rewrite IH.
    cbn [mbind result_bind mret result_ret fst snd]. now rewrite app_assoc.
Qed.


(** A text frame without paragraphs raises nothing: the update sets
    [word_wrap] and leaves the rest, and nothing is logged. *)
Lemma no_paragraphs_is_silent shape text font size center :
  text_frame shape = Some {| paragraphs := []; word_wrap := None |} ->
  TextFormatter.update_text_shape shape text font size None None None center
  = Ok {| shape_type := shape_type shape;
          text_frame := Some {| paragraphs := []; word_wrap := Some true |} |}.
Proof.
  intros H. unfold TextFormatter.update_text_shape, get_text_frame. now rewrite H.
Qed.

(** *** First match, isolation of errors, the pattern that never matches *)

(** C8. The text "R$ AAAB extra" fires the rule of "R$ AAAB" and no
    other, "R$ AAAA" is not a prefix of it; no text fires more than one
    rule; [_update_text_shape] applies the rules fired and nothing else.
    Where the bill before has a total, the shape is updated with that
    total, formatted, in "Inter Bold" at size 21: this is the text and
    the font of its first run when it has one. *)
Theorem first_match_wins (h : host) (shape : Shape) (client discount : object)
    (before after : gmap string float) (log : list log_record) (total : float) :
  before !! "total" = Some total ->
  fired (lit "R$ AAAB extra") = [AAAB]
  /\ startswith (lit "R$ AAAB extra") (pattern AAAA) = false
  /\ (forall text, (length (fired text) <= 1)%nat)
  /\ (forall text shape log,
        _update_text_shape h shape text client discount before after log
        = match run h client discount before after (fired text) shape with
          | (shape', Ok _) => (shape', log)
          | (shape', Raise e) =>
              (shape', log ++ [ {| snippet := take 20 text; error := e |} ])
          end)
  /\ _update_text_shape h shape (lit "R$ AAAB extra") client discount before after log
     = match TextFormatter.update_text_shape shape
               (lit "R$ " ++ TextFormatter.format_money_br total)
               (lit "Inter Bold") 21 None None None true with
       | Ok shape' => (shape', log)
       | Raise e =>
           (shape, log ++ [ {| snippet := take 20 (lit "R$ AAAB extra"); error := e |} ])
       end
  /\ (forall tf p ps r rs,
        text_frame shape = Some tf -> paragraphs tf = p :: ps -> runs p = r :: rs ->
        exists shape' tf' p' r',
          _update_text_shape h shape (lit "R$ AAAB extra") client discount
            before after log = (shape', log)
          /\ text_frame shape' = Some tf'
          /\ paragraphs tf' !! 0%nat = Some p'
          /\ runs p' !! 0%nat = Some r'
          /\ run_text r' = lit "R$ " ++ TextFormatter.format_money_br total
          /\ run_font r' = {| Pptx.font_name := Some (lit "Inter Bold");
                              Pptx.font_size := Some (Pt 21) |}).
Proof.
  intros Htotal.
  assert (Hrun : _update_text_shape h shape (lit "R$ AAAB extra") client discount
                   before after log
                 = match TextFormatter.update_text_shape shape
                           (lit "R$ " ++ TextFormatter.format_money_br total)
                           (lit "Inter Bold") 21 None None None true with
                   | Ok shape' => (shape', log)
                   | Raise e =>
                       (shape, log ++ [ {| snippet := take 20 (lit "R$ AAAB extra");
                                           error := e |} ])
                   end).
  { rewrite _update_text_shape_run.
    change (fired (lit "R$ AAAB extra")) with [AAAB].
    rewrite run_single. unfold apply, call_update.
    cbn [rendered font_name font_size centered]. unfold money, getitem.
    rewrite Htotal. cbn [mbind result_bind mret result_ret].
    now destruct (TextFormatter.update_text_shape _ _ _ _ _ _ _ _). }
  split; [reflexivity|]. split; [reflexivity|].
  split; [exact fired_at_most_one|].
  split; [intros; apply _update_text_shape_run|].
  split; [exact Hrun|].
  intros tf p ps r rs Htf Hps Hrs. rewrite Hrun.
  unfold TextFormatter.update_text_shape, get_text_frame. rewrite Htf.
  cbn [mbind result_bind mret result_ret]. rewrite Hps.
  cbn [default]. unfold TextFormatter.update_paragraph.
  cbn [set_alignment runs]. rewrite Hrs.
  eexists _, _, _, _. split; [reflexivity|].
  split; [reflexivity|]. split; [reflexivity|]. split; [reflexivity|].
  split; reflexivity.
Qed.


Lemma first_match_wins_witness :
  _update_text_shape Sample.h (Sample.text_box "R$ AAAB extra") (lit "R$ AAAB extra")
    (Str (lit "ACME")) (Float 20) Sample.before Sample.after []
  = (Sample.filled_box "R$ 1.234,50" "Inter Bold" 21, []).
Proof.
  destruct (first_match_wins Sample.h (Sample.text_box "R$ AAAB extra")
              (Str (lit "ACME")) (Float 20) Sample.before Sample.after [] 1234.5
              eq_refl) as (_ & _ & _ & _ & H & _).
  rewrite H. vm_compute. reflexivity.
Defined.



(** C10. The text that the resolver matches is trimmed, so it does not
    begin with a space: " R$ aBBa" is never a prefix of it, and the rule
    of that pattern is not among the rules fired for any text box; the
    rules fired are all that is applied to the shape. *)
Theorem aBBa_rule_unreachable (h : host) (client discount : object)
    (before after : gmap string float) (shape : Shape) (text : str) :
  startswith (strip text) (pattern aBBa) = false
  /\ (aBBa ∉ fired (strip text))
  /\ (shape_type shape = TEXT_BOX -> shape_text shape = Ok text ->
      resolve_shape h client discount before after shape
      = match run h client discount before after (fired (strip text)) shape with
        | (shape', Ok _) => (shape', [])
        | (shape', Raise e) =>
            (shape', [ {| snippet := take 20 (strip text); error := e |} ])
        end).
Proof.
  assert (H : startswith (strip text) (pattern aBBa) = false)
    by apply strip_no_leading_space.
  split; [exact H|]. split.
  - intros Hin. apply fired_matches in Hin. congruence.
  - intros Ht Hs. unfold resolve_shape. rewrite Hs.
    destruct (decide (shape_type shape = TEXT_BOX)); [|contradiction].
    apply _update_text_shape_run.
Qed.


Lemma aBBa_rule_unreachable_witness :
  resolve_shape Sample.h (Str (lit "ACME")) (Float 20) Sample.before Sample.after
    (Sample.text_box " R$ aBBa")
  = (Sample.text_box " R$ aBBa", []).
Proof.
  destruct (aBBa_rule_unreachable Sample.h (Str (lit "ACME")) (Float 20)
              Sample.before Sample.after (Sample.text_box " R$ aBBa")
              (lit " R$ aBBa")) as (_ & _ & H).
  rewrite H; reflexivity.
Defined.

End Placeholders.

(** ** What a render does to a presentation *)

Module Rendering.
Import PowerPointUpdater Catalog Resolver Placeholders TextShapes.
Import TarifaConstants FinancialCalculator BillingSpec Billing.
Import TextFormatter MoneyFormat Money Reading.

(** A rule that cannot render its text lacks a key of a bill. *)
Lemma rendered_raise h client discount before after r e :
  rendered h client discount before after r = Raise e ->
  exists key,
    e = KeyError key
    /\ key ∈ ["total"; "custo mínimo"; "valor em energia"; "iluminação pública";
              "impostos"]
    /\ (before !! key = None \/ after !! key = None).
Proof.
  destruct r; cbn [rendered]; unfold money, savings, getitem; try discriminate.
  all: repeat match goal with
       | |- context [?d !! ?k] =>
           let E := fresh "E" in
           destruct (d !! k) eqn:E; cbn [mbind result_bind mret result_ret]
       end; try discriminate.
  all: intros [= <-]; eexists; split; [reflexivity|]; split;
        [set_solver|auto].
Qed.


(** The update of a shape that has a text frame does not raise, and the
    shape keeps its type and a text frame. *)
Lemma update_text_shape_ok shape tf text font size center :
  text_frame shape = Some tf ->
  exists tf',
    TextFormatter.update_text_shape shape text font size None None None center
    = Ok {| shape_type := shape_type shape; text_frame := Some tf' |}.
Proof.
  intros H. unfold TextFormatter.update_text_shape, get_text_frame. rewrite H.
  eexists. reflexivity.
Qed.

(** What one rule does to a shape that has a text frame. *)
Lemma apply_outcome h client discount before after r shape tf :
  text_frame shape = Some tf ->
  match rendered h client discount before after r with
  | Ok t =>
      exists shape',
        TextFormatter.update_text_shape shape t (lit (font_name r)) (font_size r)
          None None None (centered r) = Ok shape'
        /\ apply h client discount before after r shape = (shape', Ok ())
  | Raise e => apply h client discount before after r shape = (shape, Raise e)
  end.
Proof.
  intros Htf. unfold apply, call_update.
  destruct (rendered h client discount before after r) as [t|e]; [|reflexivity].
  destruct (update_text_shape_ok shape tf t (lit (font_name r)) (font_size r)
              (centered r) Htf) as [tf' ->].
  eexists. split; reflexivity.
Qed.

(** The rules fired are none or one. *)
Lemma fired_cases text : fired text = [] \/ exists r, fired text = [r].
Proof.
  pose proof (fired_at_most_one text) as H.
  destruct (fired text) as [|r [|r' l]]; [now left|right; now exists r|cbn in H; lia].
Qed.

(** What the render does to one shape: it keeps the shape type; it logs
    nothing, or one record for a text box whose rule lacks a key, and
    then the shape is as it was. *)
Lemma resolve_shape_outcome h client discount before after shape :
  shape_type (fst (resolve_shape h client discount before after shape))
  = shape_type shape
  /\ (snd (resolve_shape h client discount before after shape) = []
      \/ exists text r key,
           shape_type shape = TEXT_BOX
           /\ shape_text shape = Ok text
           /\ fired (strip text) = [r]
           /\ rendered h client discount before after r = Raise (KeyError key)
           /\ resolve_shape h client discount before after shape
              = (shape, [ {| snippet := take 20 (strip text);
                             error := KeyError key |} ])).
Proof.
  unfold resolve_shape.
  destruct (decide (shape_type shape = TEXT_BOX)) as [Ht|Ht]; [|now split; [|left]].
  unfold shape_text. destruct (text_frame shape) as [tf|] eqn:Htf; [|now split; [|left]].
  set (text := strip _). rewrite _update_text_shape_run.
  destruct (fired_cases text) as [->|[r Hr]]; [now split; [|left]|].
  rewrite Hr, run_single.
  pose proof (apply_outcome h client discount before after r shape tf Htf) as H.
  destruct (rendered h client discount before after r) as [t|e] eqn:Er.
  - destruct H as (shape' & Hu & ->).
    destruct (update_text_shape_ok shape tf t (lit (font_name r)) (font_size r)
                (centered r) Htf) as [tf' Hu'].
    rewrite Hu' in Hu. injection Hu as <-. now split; [|left].
  - rewrite H. split; [reflexivity|]. right.
    destruct (rendered_raise _ _ _ _ _ _ _ Er) as (key & -> & _).
    exists (join [char "010"] (paragraph_text <$> paragraphs tf)), r, key.
    fold text. auto.
Qed.


(** What [update_presentation] returns when it returns. *)
Lemma update_presentation_inv h presentation client_info before after log
    presentation' log' :
  update_presentation h presentation client_info before after log
  = Ok (presentation', log') ->
  exists client discount,
    client_info !! "cliente" = Some client
    /\ client_info !! "desconto" = Some discount
    /\ presentation' = fst (resolve_all h client discount before after presentation)
    /\ log' = log ++ snd (resolve_all h client discount before after presentation).
Proof.
  unfold update_presentation, getitem.
  destruct (client_info !! "cliente") as [client|]; [|discriminate].
  destruct (client_info !! "desconto") as [discount|]; [|discriminate].
  cbn [mbind result_bind mret result_ret]. rewrite update_slides_resolve.
  destruct (resolve_all h client discount before after presentation) as [p l] eqn:E.
  intros [= <- <-]. exists client, discount. now rewrite E.
Qed.





(** X10. A render changes text boxes only. Every slide keeps its shapes
    in number and order, every shape keeps its type, and a shape that is
    not a text box, or has no text frame, comes out as it went in:
    placeholders, pictures, charts and tables are never written to. *)
Theorem other_shapes_untouched (h : host) (presentation : list (list Shape))
    (client_info : gmap string object) (before after : gmap string float)
    (log : list log_record) (presentation' : list (list Shape))
    (log' : list log_record) :
  update_presentation h presentation client_info before after log
  = Ok (presentation', log') ->
  length presentation' = length presentation
  /\ forall i slide,
       presentation !! i = Some slide ->
       exists slide',
         presentation' !! i = Some slide'
         /\ length slide' = length slide
         /\ forall j shape,
              slide !! j = Some shape ->
              exists shape',
                slide' !! j = Some shape'
                /\ shape_type shape' = shape_type shape
                /\ (shape_type shape <> TEXT_BOX \/ text_frame shape = None ->
                    shape' = shape).
Proof.
  intros H. apply update_presentation_inv in H as (client & discount & _ & _ & -> & _).
  unfold resolve_all. cbn [fst]. split; [now rewrite !length_fmap|].
  intros i slide Hi.
  exists (fst (resolve_slide h client discount before after slide)).
  split; [now rewrite !list_lookup_fmap, Hi|].
  unfold resolve_slide. cbn [fst]. split; [now rewrite !length_fmap|].
  intros j shape Hj.
  exists (fst (resolve_shape h client discount before after shape)).
  split; [now rewrite !list_lookup_fmap, Hj|].
  split; [apply resolve_shape_outcome|].
  intros Hno. unfold resolve_shape, shape_text.
  destruct (decide (shape_type shape = TEXT_BOX)) as [Ht|Ht]; [|reflexivity].
  destruct Hno as [Hno|Hno]; [contradiction|]. now rewrite Hno.
Qed.

Lemma other_shapes_untouched_witness :
  exists presentation' log',
    update_presentation Sample.h
      [ [ {| shape_type := PLACEHOLDER;
             text_frame := text_frame (Sample.text_box "R$ AAAA") |};
          Sample.text_box "R$ AAAA" ] ]
      Sample.client_info Sample.before Sample.after [] = Ok (presentation', log')
    /\ exists slide',
         presentation' !! 0%nat = Some slide'
         /\ slide' !! 0%nat
            = Some {| shape_type := PLACEHOLDER;
                      text_frame := text_frame (Sample.text_box "R$ AAAA") |}.
Proof.
  eexists _, _. split; [reflexivity|].
  destruct (other_shapes_untouched Sample.h
              [ [ {| shape_type := PLACEHOLDER;
                     text_frame := text_frame (Sample.text_box "R$ AAAA") |};
                  Sample.text_box "R$ AAAA" ] ]
              Sample.client_info Sample.before Sample.after [] _ _ eq_refl)
    as [_ H].
  destruct (H 0%nat _ eq_refl) as (slide' & Hs & _ & Hshape).
  exists slide'. split; [exact Hs|].
  destruct (Hshape 0%nat _ eq_refl) as (shape' & Hj & _ & Hsame).
  rewrite Hj. f_equal. apply Hsame. left. discriminate.
Defined.

(** A text that fires a rule is not empty, so the text frame has a
    paragraph. *)
Lemma fired_paragraph shape text r :
  shape_text shape = Ok text -> fired (strip text) = [r] ->
  exists tf p ps, text_frame shape = Some tf /\ paragraphs tf = p :: ps.
Proof.
  unfold shape_text. destruct (text_frame shape) as [tf|]; [|discriminate].
  intros [= <-] Hf. destruct (paragraphs tf) as [|p ps] eqn:E; [discriminate|].
  now exists tf, p, ps.
Qed.

(** The loop of [_update_slide] on a text box that fires one rule whose
    text renders. *)
Lemma fill_box h client discount before after log shape text r t tf p ps :
  shape_type shape = TEXT_BOX ->
  shape_text shape = Ok text ->
  fired (strip text) = [r] ->
  rendered h client discount before after r = Ok t ->
  text_frame shape = Some tf ->
  paragraphs tf = p :: ps ->
  _update_slide h [shape] client discount before after log
  = Ok ([ {| shape_type := TEXT_BOX;
             text_frame :=
               Some {| paragraphs :=
                         update_paragraph p t (lit (font_name r)) (font_size r)
                           (centered r) :: ps;
                       word_wrap := Some true |} |} ], log).
Proof.
  intros Htype Htext Hf Hr Htf Hps.
  cbn [_update_slide]. rewrite Htype.
  destruct (decide (TEXT_BOX = TEXT_BOX)); [|contradiction].
  unfold has_text_frame. rewrite Htf, Htext.
  cbn [mbind result_bind mret result_ret].
  rewrite _update_text_shape_run, Hf, run_single.
  unfold apply, call_update. rewrite Hr.
  unfold TextFormatter.update_text_shape, get_text_frame. rewrite Htf.
  cbn [mbind result_bind mret result_ret]. rewrite Hps, Htype. reflexivity.
Qed.




(** Trimming keeps a first character that is not white space ... *)
Lemma lstrip_nonspace a s : isspace a = false -> lstrip (a :: s) = a :: s.
Proof. intros H. cbn [lstrip]. now rewrite H. Qed.

Lemma lstrip_snoc l x :
  lstrip (l ++ [x]) = match lstrip l with
                      | [] => lstrip [x]
                      | r => r ++ [x]
                      end.
Proof.
  induction l as [|c l IH]; [reflexivity|].
  cbn [app lstrip]. destruct (isspace c); [exact IH|reflexivity].
Qed.

(** ... and every character in front of one that is not white space. *)
Lemma rstrip_cons x s :
  rstrip s <> [] \/ isspace x = false -> rstrip (x :: s) = x :: rstrip s.
Proof.
  unfold rstrip. cbn [rev]. rewrite lstrip_snoc. intros H.
  destruct (lstrip (rev s)) as [|c r] eqn:E.
  - destruct H as [H|H]; [contradiction|]. cbn [lstrip]. now rewrite H.
  - now rewrite rev_app_distr.
Qed.

Lemma strip_keeps_four a b c d s :
  isspace a = false -> isspace d = false ->
  exists s', strip (a :: b :: c :: d :: s) = a :: b :: c :: d :: s'.
Proof.
  intros Ha Hd. unfold strip. rewrite lstrip_nonspace by exact Ha.
  assert (H1 : rstrip (d :: s) = d :: rstrip s) by (apply rstrip_cons; now right).
  assert (H2 : rstrip (c :: d :: s) = c :: d :: rstrip s).
  { rewrite rstrip_cons, H1; [reflexivity|]. left. now rewrite H1. }
  assert (H3 : rstrip (b :: c :: d :: s) = b :: c :: d :: rstrip s).
  { rewrite rstrip_cons, H2; [reflexivity|]. left. now rewrite H2. }
  exists (rstrip s). rewrite rstrip_cons, H3; [reflexivity|]. left. now rewrite H3.
Qed.

(** A formatted amount after "R$ " is no placeholder. *)
Lemma money_text_fires_nothing value rest :
  fired (strip (lit "R$ " ++ format_money_br value ++ rest)) = [].
Proof.
  destruct (format_money_br_chars value) as (ch & s & -> & Hch).
  assert (Hsp : isspace ch = false /\ forall u, (65 <= u <= 73)%N -> N.eqb u ch = false).
  { destruct Hch as [Hd|Hin].
    - digit_bounds. split.
      + unfold isspace. repeat match goal with
          | |- context [(?a <=? ?b)%N] => destruct (N.leb_spec a b)
          | |- context [(?a =? ?b)%N] => destruct (N.eqb_spec a b)
          end; cbn; try reflexivity; lia.
      + intros u Hu. apply N.eqb_neq. lia.
    - repeat (apply elem_of_cons in Hin as [->|Hin];
              [split; [reflexivity|intros u Hu; apply N.eqb_neq;
                                   let E := fresh in intros E; subst u; vm_compute in Hu;
                                   destruct Hu as [H1 H2]; first [now apply H1|now apply H2]]|]).
      now apply elem_of_nil in Hin. }
  destruct Hsp as [Hsp Hup].
  change (lit "R$ " ++ (ch :: s) ++ rest) with (82%N :: 36%N :: 32%N :: ch :: s ++ rest).
  destruct (strip_keeps_four 82 36 32 ch (s ++ rest) eq_refl Hsp) as [s' ->].
  apply fired_none. intros r.
  assert (Hc : forall u d x p, startswith (d :: x) (u :: p) = N.eqb u d && startswith x p)
    by reflexivity.
  destruct r; try reflexivity;
    match goal with |- startswith _ ?p = _ =>
      let q := eval vm_compute in p in change p with q end;
    rewrite !Hc, !N.eqb_refl; cbn [andb]; rewrite Hup by lia; reflexivity.
Qed.

(** The loop of [_update_slide] on a shape whose text fires no rule. *)
Lemma skip_box h client discount before after log shape text :
  shape_text shape = Ok text ->
  fired (strip text) = [] ->
  _update_slide h [shape] client discount before after log = Ok ([shape], log).
Proof.
  intros Htext Hf. cbn [_update_slide].
  destruct (decide (shape_type shape = TEXT_BOX)); [|reflexivity].
  unfold has_text_frame. rewrite Htext.
  destruct (text_frame shape); cbn [mbind result_bind mret result_ret];
    [|reflexivity].
  now rewrite _update_text_shape_run, Hf.
Qed.

(** The rules of the amounts render "R$ " and a formatted amount. *)
Lemma rendered_money h client discount before after r t :
  r ∉ [CLIENTE; DATA; XX; YY] ->
  rendered h client discount before after r = Ok t ->
  exists value, t = lit "R$ " ++ format_money_br value.
Proof.
  intros Hr. destruct r; try (exfalso; apply Hr; rewrite !elem_of_cons; now auto 6);
    cbn [rendered]; unfold money;
    match goal with |- (v ← ?x; _) = _ -> _ => destruct x as [v|e] end;
    cbn [mbind result_bind mret result_ret]; try discriminate;
    intros [= <-]; now exists v.
Qed.

(** X13. An amount that has been written is not taken for a
    placeholder: a shape whose text is "R$ " and a formatted amount,
    whatever follows, fires no rule and is returned as it is, with nothing
    logged. So a second render leaves a box that a rule of the amounts has
    filled as the first render made it. *)
Theorem rendered_amount_is_left_alone (h : host) (client discount : object)
    (before after : gmap string float) (log : list log_record)
    (shape : Shape) (text : str) (r : rule) (t : str) :
  shape_type shape = TEXT_BOX ->
  shape_text shape = Ok text ->
  fired (strip text) = [r] ->
  r ∉ [CLIENTE; DATA; XX; YY] ->
  rendered h client discount before after r = Ok t ->
  (forall value rest, fired (strip (lit "R$ " ++ format_money_br value ++ rest)) = [])
  /\ exists shape' text',
       _update_slide h [shape] client discount before after log = Ok ([shape'], log)
       /\ shape_text shape' = Ok (t ++ text')
       /\ _update_slide h [shape'] client discount before after log
          = Ok ([shape'], log).
Proof.
  intros Htype Htext Hf Hmoney Hr. split; [exact money_text_fires_nothing|].
  destruct (fired_paragraph shape text r Htext Hf) as (tf & p & ps & Htf & Hps).
  pose proof (fill_box h client discount before after log shape text r t tf p ps
                Htype Htext Hf Hr Htf Hps) as Hfill.
  pose proof (update_paragraph_spec p t (lit (font_name r)) (font_size r) (centered r))
    as (Hpt & _). cbv zeta in Hpt.
  set (p' := update_paragraph p t (lit (font_name r)) (font_size r) (centered r)) in *.
  set (shape' := {| shape_type := TEXT_BOX;
                    text_frame := Some {| paragraphs := p' :: ps;
                                          word_wrap := Some true |} |}) in *.
  assert (Ht' : exists text', shape_text shape' = Ok (t ++ text')).
  { unfold shape_text, shape'. cbn [text_frame paragraphs fmap list_fmap join].
    rewrite Hpt. destruct (paragraph_text <$> ps) as [|x l].
    - eexists. reflexivity.
    - eexists. rewrite <- app_assoc. reflexivity. }
  destruct Ht' as [text' Ht']. exists shape', text'.
  split; [exact Hfill|]. split; [exact Ht'|].
  apply (skip_box _ _ _ _ _ _ _ (t ++ text') Ht').
  destruct (rendered_money _ _ _ _ _ _ _ Hmoney Hr) as [value ->].
  rewrite <- app_assoc. apply money_text_fires_nothing.
Qed.

Lemma rendered_amount_is_left_alone_witness :
  exists shape',
    _update_slide Sample.h [Sample.split_box] (Str (lit "ACME")) (Float 20)
      Sample.before Sample.after [] = Ok ([shape'], [])
    /\ _update_slide Sample.h [shape'] (Str (lit "ACME")) (Float 20)
         Sample.before Sample.after [] = Ok ([shape'], []).
Proof.
  assert (Hm : AAAA ∉ [CLIENTE; DATA; XX; YY])
    by exact (bool_decide_unpack (AAAA ∉ [CLIENTE; DATA; XX; YY]) I).
  destruct (rendered_amount_is_left_alone Sample.h (Str (lit "ACME")) (Float 20)
              Sample.before Sample.after [] Sample.split_box (lit "R$ AAAA") AAAA
              (lit "R$ 1.234,50") eq_refl eq_refl eq_refl Hm eq_refl) as [_ H].
  destruct H as (shape' & text' & H1 & _ & H2). now exists shape'.
Defined.

End Rendering.
